(** * Static page generator and soot-sprite animation of the Ghibli fan site

    A shallow embedding of [generate-static.js] (the static HTML generator)
    and of the soot easter-egg script, followed by the properties of the
    specification that were checked against them.

    Conventions of the embedding.
    - A JavaScript string is a [str]: the list of the bytes of its UTF-8
      encoding, which is what [fs.writeFileSync] writes.  The string
      primitives ([split], [includes], [toLowerCase], ...) are exact on
      ASCII data; case mapping and white space outside ASCII are outside
      the model.
    - [null] and [undefined] are [None]; a collection that failed to
      download is [None], as [fetchAPI] returns [null] for it.
    - A JavaScript exception is the [TypeError] result of the [result]
      monad; every exception the modelled code can raise is a [TypeError].
    - An array that is sorted in place is passed in and out explicitly.
    - The output directory, the network and the optional minifier are the
      environment: the fetched collections and the minifier are inputs,
      the files written and the console lines are outputs. *)

From Stdlib Require Import Ascii String DecimalString.
From Stdlib Require Import ZArith QArith Qround Lia Lqa Bool Arith.
From Stdlib Require Import List Permutation Sorted.
Import ListNotations.

Set Implicit Arguments.

(* ================================================================= *)
(** * JavaScript primitives *)

Module JS.

Definition str := list ascii.

(** [q "..."] is a string literal of the source in which a backquote
    stands for the double quote character (code 34). *)
Definition q (s : string) : str :=
  map (fun c => if Ascii.eqb c "`"%char then ascii_of_nat 34 else c)
      (list_ascii_of_string s).

Fixpoint streq (a b : str) : bool :=
  match a, b with
  | [], [] => true
  | x :: a', y :: b' => Ascii.eqb x y && streq a' b'
  | _, _ => false
  end.

(** Truthiness of a possibly absent string: [undefined], [null] and the
    empty string are falsy. *)
Definition truthy (o : option str) : bool :=
  match o with
  | Some (_ :: _) => true
  | _ => false
  end.

Fixpoint startsWith (s t : str) : bool :=
  match t, s with
  | [], _ => true
  | y :: t', x :: s' => Ascii.eqb x y && startsWith s' t'
  | _ :: _, [] => false
  end.

(** [s.includes(t)] *)
Fixpoint includes (s t : str) : bool :=
  startsWith s t ||
  match s with
  | [] => false
  | _ :: s' => includes s' t
  end.

(** [s.split(sep)] for a one-character separator; never the empty array. *)
Fixpoint split (sep : ascii) (s : str) : list str :=
  match s with
  | [] => [[]]
  | c :: s' =>
      if Ascii.eqb c sep then [] :: split sep s'
      else match split sep s' with
           | [] => [[c]]
           | p :: ps => (c :: p) :: ps
           end
  end.

(** [parts.join(sep)] *)
Fixpoint join (sep : str) (parts : list str) : str :=
  match parts with
  | [] => []
  | [p] => p
  | p :: rest => p ++ sep ++ join sep rest
  end.

Definition code (c : ascii) : Z := Z.of_nat (nat_of_ascii c).

Definition lowerChar (c : ascii) : ascii :=
  if (65 <=? code c)%Z && (code c <=? 90)%Z
  then ascii_of_nat (nat_of_ascii c + 32) else c.

Definition upperChar (c : ascii) : ascii :=
  if (97 <=? code c)%Z && (code c <=? 122)%Z
  then ascii_of_nat (nat_of_ascii c - 32) else c.

Definition toLowerCase (s : str) : str := map lowerChar s.
Definition toUpperCase (s : str) : str := map upperChar s.

(** [s.replace(/-/g, '_')] *)
Definition replaceDashes (s : str) : str :=
  map (fun c => if Ascii.eqb c "-"%char then "_"%char else c) s.

(** The decimal rendering of an array length inside a template literal. *)
Definition showNat (n : nat) : str :=
  list_ascii_of_string (NilEmpty.string_of_uint (Nat.to_uint n)).

(** ** Exceptions *)

Inductive result (A : Type) : Type :=
| Ok (a : A)
| TypeError.
Arguments TypeError {A}.

Definition bind {A B} (r : result A) (k : A -> result B) : result B :=
  match r with
  | Ok a => k a
  | TypeError => TypeError
  end.

Fixpoint mapM {A B} (f : A -> result B) (l : list A) : result (list B) :=
  match l with
  | [] => Ok []
  | x :: l' =>
      bind (f x) (fun y => bind (mapM f l') (fun ys => Ok (y :: ys)))
  end.

(** Method call or property access on a collection that may be [null]. *)
Definition deref {A} (o : option A) : result A :=
  match o with
  | Some a => Ok a
  | None => TypeError
  end.

(** ** Numbers

    The only Number values the generator computes are results of
    [parseInt] and differences of two of them: integers rounded to
    binary64, the two infinities and NaN. *)

Inductive Number : Type :=
| NaN
| Inf (plus : bool)
| Fin (z : Z).

(** Round an integer to the nearest binary64 value, ties to even. *)
Definition toNumber (z : Z) : Number :=
  let a := Z.abs z in
  if (a <? 2 ^ 53)%Z then Fin z
  else
    let e := (Z.log2 a - 52)%Z in
    let m := Z.shiftr a e in
    let r := (a - Z.shiftl m e)%Z in
    let half := Z.shiftl 1 (e - 1) in
    let m' := if (r <? half)%Z then m
              else if (half <? r)%Z then (m + 1)%Z
              else if Z.even m then m else (m + 1)%Z in
    let v := Z.shiftl m' e in
    if (2 ^ 1024 <=? v)%Z then Inf (0 <? z)%Z
    else Fin (Z.sgn z * v).

(** [a - b] *)
Definition sub (a b : Number) : Number :=
  match a, b with
  | NaN, _ | _, NaN => NaN
  | Fin x, Fin y => toNumber (x - y)
  | Inf s, Fin _ => Inf s
  | Fin _, Inf s => Inf (negb s)
  | Inf s, Inf t => if Bool.eqb s t then NaN else Inf s
  end.

(** [a < b] *)
Definition lt (a b : Number) : bool :=
  match a, b with
  | NaN, _ | _, NaN => false
  | Fin x, Fin y => (x <? y)%Z
  | Inf s, Fin _ => negb s
  | Fin _, Inf s => s
  | Inf s, Inf t => negb s && t
  end.

(** ASCII white space: tab, line feed, vertical tab, form feed,
    carriage return, space. *)
Definition isWhiteSpace (c : ascii) : bool :=
  existsb (Z.eqb (code c)) [9; 10; 11; 12; 13; 32]%Z.

Fixpoint trimStart (s : str) : str :=
  match s with
  | c :: s' => if isWhiteSpace c then trimStart s' else s
  | [] => []
  end.

Definition digitValue (c : ascii) : option Z :=
  let n := code c in
  if (48 <=? n)%Z && (n <=? 57)%Z then Some (n - 48)%Z
  else if (97 <=? n)%Z && (n <=? 122)%Z then Some (n - 87)%Z
  else if (65 <=? n)%Z && (n <=? 90)%Z then Some (n - 55)%Z
  else None.

(** Value of the longest prefix of [s] made of digits of the radix;
    [acc] is [None] until a first digit has been read. *)
Fixpoint readDigits (radix : Z) (acc : option Z) (s : str) : option Z :=
  match s with
  | [] => acc
  | c :: s' =>
      match digitValue c with
      | Some d =>
          if (d <? radix)%Z
          then readDigits radix
                 (Some (match acc with Some a => a * radix + d | None => d end)%Z) s'
          else acc
      | None => acc
      end
  end.

(** [parseInt(s)] with no radix argument: leading white space, a sign,
    a [0x] prefix selecting radix 16, then the longest run of digits;
    NaN when there is no digit.  All digits are significant (the
    standard lets an engine zero decimal digits after the 20th). *)
Definition parseInt (s : str) : Number :=
  let s1 := trimStart s in
  let '(sign, s2) :=
    match s1 with
    | c :: r => if Ascii.eqb c "-"%char then ((-1)%Z, r)
                else if Ascii.eqb c "+"%char then (1%Z, r)
                else (1%Z, s1)
    | [] => (1%Z, s1)
    end in
  let '(radix, s3) :=
    match s2 with
    | z :: x :: r =>
        if Ascii.eqb z "0"%char && (Ascii.eqb x "x"%char || Ascii.eqb x "X"%char)
        then (16%Z, r) else (10%Z, s2)
    | _ => (10%Z, s2)
    end in
  match readDigits radix None s3 with
  | None => NaN
  | Some m => toNumber (sign * m)
  end.

(** ** Array.prototype.sort

    The sort is stable (ECMAScript 2019).  A comparator result that is
    positive puts the second argument first; zero, a negative value and
    NaN (read as +0) keep the first argument first.  For a consistent
    comparator every conforming implementation returns the list computed
    here; the model is a stable insertion sort.  When the comparator is
    not consistent (it returns NaN for some pairs only) the standard
    leaves the order to the implementation; an array whose neighbours
    the comparator never orders the other way round is left as it is
    by this sort, as it is by the merge sort of Node. *)

Definition isPositive (v : Number) : bool :=
  match v with
  | Fin z => (0 <? z)%Z
  | Inf s => s
  | NaN => false
  end.

Fixpoint insert {A} (cmp : A -> A -> Number) (x : A) (l : list A) : list A :=
  match l with
  | [] => [x]
  | y :: l' => if isPositive (cmp x y) then y :: insert cmp x l' else x :: l
  end.

Definition sort {A} (cmp : A -> A -> Number) (l : list A) : list A :=
  fold_right (insert cmp) [] l.

(** ** Set of strings, in insertion order *)

Definition Set_add (s : list str) (x : str) : list str :=
  if existsb (streq x) s then s else s ++ [x].

(** [new Set(values)] *)
Definition newSet (values : list str) : list str :=
  fold_left Set_add values [].

(** [array.find(pred)] *)
Definition find {A} := @List.find A.

(** Last element of an array, [undefined] when it is empty. *)
Definition lastOf {A} (l : list A) : option A := List.last (map Some l) None.

End JS.

(* ================================================================= *)
(** * The generator: generate-static.js *)

Module Generator.
Import JS.

(** ** Data model

    Records of the five collections.  A field that the generator guards
    with a truthiness or [Array.isArray] test is optional; the fields it
    interpolates unguarded are strings. *)

Module Film.
Record t : Type := {
  id : str;
  title : str;
  original_title : str;
  original_title_romanised : str;
  director : str;
  producer : str;
  release_date : str;
  running_time : str;
  rt_score : str;
  description : str
}.
End Film.

Module Person.
Record t : Type := {
  id : str;
  name : str;
  gender : option str;
  age : option str;
  eye_color : option str;
  hair_color : option str;
  species : option str;
  films : option (list str)
}.
End Person.

Module Species.
Record t : Type := {
  id : str;
  name : str;
  classification : option str;
  eye_colors : option str;
  hair_colors : option str;
  people : option (list str);
  films : option (list str)
}.
End Species.

Module Location.
Record t : Type := {
  id : str;
  name : str;
  films : option (list str)
}.
End Location.

Module Vehicle.
Record t : Type := {
  id : str;
  name : str;
  films : option (list str)
}.
End Vehicle.

(** What [fetchAllData] returns: each collection is [None] when its
    request failed. *)
Record Data : Type := {
  films : option (list Film.t);
  locations : option (list Location.t);
  vehicles : option (list Vehicle.t);
  people : option (list Person.t);
  species : option (list Species.t)
}.

Local Notation "x <- m ;; k" := (bind m (fun x => k))
  (at level 61, m at next level, right associativity).

(** ** Small expression forms *)

Definition isEmpty (s : str) : bool :=
  match s with
  | [] => true
  | _ => false
  end.

(** [x ? yes(x) : no] on a possibly absent string. *)
Definition ifTruthy {A} (o : option str) (yes : str -> A) (no : A) : A :=
  match o with
  | Some (c :: s) => yes (c :: s)
  | _ => no
  end.

(** [x || dflt] on a possibly absent string. *)
Definition orDefault (o : option str) (dflt : str) : str :=
  ifTruthy o (fun s => s) dflt.

(** [s || dflt] on a string. *)
Definition orElse (s dflt : str) : str :=
  if isEmpty s then dflt else s.

(** Interpolation of a value that may be [null]. *)
Definition showNull (o : option str) : str :=
  match o with
  | Some s => s
  | None => q "null"
  end.

(** ** Helper functions *)

Definition getIdFromUrl (url : str) : option str :=
  if isEmpty url then None
  else lastOf (split "/" url).

(** The test shared by the three filters below: the record has an array
    of film URLs, one of which contains the film id. *)
Definition matchesFilm (filmId : str) (films : option (list str)) : bool :=
  match films with
  | None => false
  | Some urls => existsb (fun filmUrl => includes filmUrl filmId) urls
  end.

Definition getLocationsForFilm (filmId : str)
    (locations : option (list Location.t)) : result (list Location.t) :=
  ls <- deref locations ;;
  Ok (filter (fun location => matchesFilm filmId (Location.films location)) ls).

Definition getPeopleForFilm (filmId : str)
    (people : option (list Person.t)) : result (list Person.t) :=
  ps <- deref people ;;
  Ok (filter (fun person => matchesFilm filmId (Person.films person)) ps).

Definition getVehiclesForFilm (filmId : str)
    (vehicles : option (list Vehicle.t)) : result (list Vehicle.t) :=
  vs <- deref vehicles ;;
  Ok (filter (fun vehicle => matchesFilm filmId (Vehicle.films vehicle)) vs).

Definition getSpeciesById (speciesIdOrUrl : str)
    (speciesArray : option (list Species.t)) : result (option Species.t) :=
  let speciesId :=
    if includes speciesIdOrUrl (q "/")
    then last (split "/" speciesIdOrUrl) []
    else speciesIdOrUrl in
  arr <- deref speciesArray ;;
  Ok (find (fun species => streq (Species.id species) speciesId) arr).

Definition capitalize (s : str) : str :=
  if isEmpty s || streq s (q "n/a") || streq s (q "NA") then s
  else join (q " ")
         (map (fun word => toUpperCase (firstn 1 word) ++ toLowerCase (skipn 1 word))
              (split " " s)).

(** [parts[0][0] + parts[parts.length - 1][0]] adds two values that are a
    character or [undefined]; the sum of two [undefined] is NaN, on which
    the call of [toUpperCase] raises. *)
Definition getInitials (name : str) : result str :=
  if isEmpty name then Ok (q "?")
  else
    let parts := split " " name in
    if (2 <=? length parts)%nat then
      match hd [] parts, last parts [] with
      | [], [] => TypeError
      | a :: _, [] => Ok (toUpperCase (a :: q "undefined"))
      | [], b :: _ => Ok (toUpperCase (q "undefined" ++ [b]))
      | a :: _, b :: _ => Ok (toUpperCase [a; b])
      end
    else Ok (toUpperCase (firstn 2 name)).

Definition getAvatarColor (gender : option str) : str :=
  ifTruthy gender (fun gender =>
    let genderLower := toLowerCase gender in
    if streq genderLower (q "female") then q "avatar-female"
    else if streq genderLower (q "male") then q "avatar-male"
    else q "avatar-neutral")
    (q "avatar-neutral").

Definition getSpeciesHeroClass (classification : option str) : str :=
  ifTruthy classification (fun classification =>
    let classLower := toLowerCase classification in
    if includes classLower (q "mammal") then q "species-hero-mammal"
    else if includes classLower (q "spirit") || includes classLower (q "god")
    then q "species-hero-spirit"
    else if includes classLower (q "bird") || includes classLower (q "avian")
    then q "species-hero-bird"
    else q "species-hero-default")
    (q "species-hero-default").

(** ** Minification

    [minify] is the function exported by the optional html-minifier
    package, [None] when the package is not installed. *)
Definition minifyHTML (minify : option (str -> str)) (html : str) : str :=
  match minify with
  | None => html
  | Some f => f html
  end.

(** ** Page templates *)

Definition getBaseTemplate (content title : str) : str :=
  (q "<!DOCTYPE html>
<html lang=`en`>
<head>
    <meta charset=`UTF-8`>
    <meta name=`viewport` content=`width=device-width, initial-scale=1.0`>
    <title>" ++ title ++ q "</title>
    <link rel=`stylesheet` href=`global-min.css`>
    <link rel=`stylesheet` href=`film-min.css`>
</head>
<body>
    <div class=`clouds`></div>

    " ++ content ++ q "

    <footer>
        <div class=`container`>
            <p>Data provided by <a href=`https://ghibliapi.vercel.app/` target=`_blank`>Ghibli API</a></p>
            <p>&copy; 2025 Studio Ghibli Fan Site</p>
        </div>
    </footer>
</body>
</html>").

Definition getSpeciesTemplate (content title : str) : str :=
  (q "<!DOCTYPE html>
<html lang=`en`>
<head>
    <meta charset=`UTF-8`>
    <meta name=`viewport` content=`width=device-width, initial-scale=1.0`>
    <title>" ++ title ++ q "</title>
    <link rel=`stylesheet` href=`global-min.css`>
    <link rel=`stylesheet` href=`species-min.css`>
</head>
<body>
    <div class=`clouds`></div>

    " ++ content ++ q "

    <footer>
        <div class=`container`>
            <p>Data provided by <a href=`https://ghibliapi.vercel.app/` target=`_blank`>Ghibli API</a></p>
            <p>&copy; 2025 Studio Ghibli Fan Site</p>
        </div>
    </footer>
</body>
</html>").

Definition getIndexTemplate (content title : str) : str :=
  (q "<!DOCTYPE html>
<html lang=`en`>
<head>
    <meta charset=`UTF-8`>
    <meta name=`viewport` content=`width=device-width, initial-scale=1.0`>
    <title>" ++ title ++ q "</title>
    <link rel=`stylesheet` href=`global-min.css`>
    <link rel=`stylesheet` href=`index-min.css`>
</head>
<body>
    
    <!-- Soot Sprites (Susuwatari) -->
    <div class=`soot-sprites`>
        <div class=`soot-sprite` style=`left: 10%; animation-delay: 0s; width: 28px; height: 28px;`>
            <div class=`soot-limbs`></div>
        </div>
        <div class=`soot-sprite` style=`left: 25%; animation-delay: 2s; width: 32px; height: 32px;`>
            <div class=`soot-limbs`></div>
        </div>
        <div class=`soot-sprite` style=`left: 45%; animation-delay: 4s; width: 26px; height: 26px;`>
            <div class=`soot-limbs`></div>
        </div>
        <div class=`soot-sprite` style=`left: 65%; animation-delay: 1s; width: 30px; height: 30px;`>
            <div class=`soot-limbs`></div>
        </div>
        <div class=`soot-sprite` style=`left: 80%; animation-delay: 3s; width: 34px; height: 34px;`>
            <div class=`soot-limbs`></div>
        </div>
        <div class=`soot-sprite` style=`left: 90%; animation-delay: 5s; width: 27px; height: 27px;`>
            <div class=`soot-limbs`></div>
        </div>
    </div>
    
    <!-- Kodama (Tree Spirits) -->
    <div class=`kodama-container`>
        <div class=`kodama` style=`left: 15%; top: 20%;`></div>
        <div class=`kodama` style=`left: 75%; top: 35%;`></div>
        <div class=`kodama` style=`left: 30%; top: 60%;`></div>
    </div>
    
    <!-- Floating Leaves -->
    <div class=`leaves`>
        <div class=`leaf` style=`left: 20%; animation-delay: 0s;`></div>
        <div class=`leaf` style=`left: 50%; animation-delay: 3s;`></div>
        <div class=`leaf` style=`left: 70%; animation-delay: 6s;`></div>
        <div class=`leaf` style=`left: 85%; animation-delay: 9s;`></div>
    </div>

    " ++ content ++ q "

    <footer>
        <div class=`container`>
            <p>Data provided by <a href=`https://ghibliapi.vercel.app/` target=`_blank`>Ghibli API</a></p>
            <p>&copy; 2025 Studio Ghibli Fan Site</p>
        </div>
    </footer>

    <script src=`soot-min.js`></script>
</body>
</html>").

(** ** Index page *)

(** The comparator passed to [films.sort]. *)
Definition byReleaseYear (a b : Film.t) : Number :=
  sub (parseInt (Film.release_date a)) (parseInt (Film.release_date b)).

(** The callback of [sortedFilms.map]: the card of one film. *)
Definition indexFilmCard (film : Film.t) : str :=
  let imageId := replaceDashes (Film.id film) in
  let imageUrl := (q "https://marsbj.folk.ntnu.no/images/films_" ++ imageId ++ q ".webp") in
  (q "
            <a href=`film_" ++ Film.id film ++ q ".html` class=`film-card` style=`text-decoration: none; color: inherit; cursor: pointer;`>
                <img src=`" ++ imageUrl ++ q "` alt=`" ++ Film.title film ++ q "` class=`film-image` loading=`lazy`>
                <div class=`film-content`>
                    <div class=`release-year`>" ++ Film.release_date film ++ q "</div>
                    <h2>" ++ Film.title film ++ q "</h2>
                    <div class=`original-title`>" ++ Film.original_title film ++ q "</div>
                    <div class=`film-info`>
                        <div class=`info-item`>
                            <span class=`info-label`>Director:</span>
                            <span>" ++ Film.director film ++ q "</span>
                        </div>
                        <div class=`info-item`>
                            <span class=`info-label`>Producer:</span>
                            <span>" ++ Film.producer film ++ q "</span>
                        </div>
                        <div class=`info-item`>
                            <span class=`info-label`>Runtime:</span>
                            <span>" ++ Film.running_time film ++ q " mins</span>
                        </div>
                        <div class=`info-item`>
                            <span class=`rt-score`>⭐ " ++ Film.rt_score film ++ q "%</span>
                        </div>
                    </div>
                    <div class=`description`>
                        " ++ Film.description film ++ q "
                    </div>
                </div>
            </a>
        ").

(** The template literal [headerHTML] of [generateIndexPage]. *)
Definition indexHeader (filmsHTML : str) : str :=
  (q "
    <header>
        <div class=`container`>
            <h1 class=`logo`>STUDIO GHIBLI</h1>
            <p class=`tagline`>Explore the Magical World of Ghibli</p>
        </div>
    </header>

    <main class=`container`>
        <div id=`films-grid` class=`films-grid`>
            " ++ filmsHTML ++ q "
        </div>
    </main>
    ").

(** [films.sort] sorts the array it is given in place: the first
    component of the result is the content of that array after the
    call, the second is the page. *)
Definition generateIndexPage (films : option (list Film.t))
    : result (list Film.t * str) :=
  fs <- deref films ;;
  let sortedFilms := sort byReleaseYear fs in
  let filmsHTML := join [] (map indexFilmCard sortedFilms) in
  let headerHTML := indexHeader filmsHTML in
  Ok (sortedFilms, getIndexTemplate headerHTML (q "Studio Ghibli Films")).

(** ** Film page *)

(** The species name and link target of a character: ['Unknown'] and
    [null] unless the person has a species reference. *)
Definition characterSpecies (data : Data) (person : Person.t)
    : result (str * option str) :=
  ifTruthy (Person.species person) (fun speciesRef =>
    speciesData <- getSpeciesById speciesRef (species data) ;;
    Ok (match speciesData with
        | Some sd => orElse (Species.name sd) (q "Unknown")
        | None => q "Unknown"
        end, Some speciesRef))
    (Ok (q "Unknown", None)).

(** The callback of [filmPeople.map]: the card of one person. *)
Definition filmCharacterCard (data : Data) (person : Person.t) : result str :=
  sp <- characterSpecies data person ;;
  let speciesName := fst sp in
  let speciesUrl := snd sp in
  initials <- getInitials (Person.name person) ;;
  Ok (q "
            <div class=`character-card`>
                <div class=`character-avatar " ++ getAvatarColor (Person.gender person) ++ q "`>
                    " ++ initials ++ q "
                </div>
                <h4>" ++ Person.name person ++ q "</h4>
                <div class=`character-details`>
                    " ++ (ifTruthy (Person.gender person) (fun gender => (q "
                        <div class=`character-detail-item`>
                            <span class=`detail-label`>Gender:</span>
                            <span class=`detail-value`>" ++ capitalize gender ++ q "</span>
                        </div>
                    ")) []) ++ q "
                    " ++ (ifTruthy (Person.age person) (fun age => (q "
                        <div class=`character-detail-item`>
                            <span class=`detail-label`>Age:</span>
                            <span class=`detail-value`>" ++ age ++ q "</span>
                        </div>
                    ")) []) ++ q "
                    " ++ (ifTruthy (Person.eye_color person) (fun eye_color => (q "
                        <div class=`character-detail-item`>
                            <span class=`detail-label`>Eye Color:</span>
                            <span class=`detail-value`>" ++ capitalize eye_color ++ q "</span>
                        </div>
                    ")) []) ++ q "
                    " ++ (ifTruthy (Person.hair_color person) (fun hair_color => (q "
                        <div class=`character-detail-item`>
                            <span class=`detail-label`>Hair Color:</span>
                            <span class=`detail-value`>" ++ capitalize hair_color ++ q "</span>
                        </div>
                    ")) []) ++ q "
                    " ++ (if negb (isEmpty speciesName) && negb (streq speciesName (q "Unknown")) then (q "
                        <div class=`character-detail-item`>
                            <span class=`detail-label`>Species:</span>
                            <span class=`detail-value`>
                                " ++ (ifTruthy speciesUrl (fun speciesUrl => (q "<a href=`species_" ++ showNull (getIdFromUrl speciesUrl) ++ q ".html` class=`species-link`>" ++ speciesName ++ q "</a>")) speciesName) ++ q "
                            </span>
                        </div>
                    ") else []) ++ q "
                </div>
            </div>
        ").

(** The tags of the three lists of the film page. *)
Definition locationTag (location : Location.t) : str :=
  (q "<div class=`info-tag`>" ++ Location.name location ++ q "</div>").

Definition speciesTag (speciesObj : Species.t) : str :=
  (q "<a href=`species_" ++ Species.id speciesObj ++ q ".html` class=`info-tag` style=`text-decoration: none; cursor: pointer;`>" ++ Species.name speciesObj ++ q "</a>").

Definition vehicleTag (vehicle : Vehicle.t) : str :=
  (q "<div class=`info-tag`>" ++ Vehicle.name vehicle ++ q "</div>").

Definition noneTag : str := q "<div class=`info-tag`>None</div>".

(** The person's species reference when it is truthy. *)
Definition speciesRefs (filmPeople : list Person.t) : list str :=
  map (fun person => showNull (Person.species person))
      (filter (fun person => truthy (Person.species person)) filmPeople).

(** One entry per reference of the set: the tag of the species it
    resolves to, the empty string when it resolves to none. *)
Definition speciesTagOrEmpty (data : Data) (speciesUrl : str) : result str :=
  speciesObj <- getSpeciesById speciesUrl (species data) ;;
  Ok (match speciesObj with
      | Some s => speciesTag s
      | None => []
      end).

(** [speciesHTML]: the tags of the references that resolve, or the
    "None" tag when the set is empty. *)
Definition filmSpeciesHTML (data : Data) (uniqueSpecies : list str) : result str :=
  if (0 <? length uniqueSpecies)%nat then
    tags <- mapM (speciesTagOrEmpty data) uniqueSpecies ;;
    Ok (join [] (filter (fun html => negb (isEmpty html)) tags))
  else Ok noneTag.

(** The template literal [headerHTML] of [generateFilmPage]. *)
Definition filmHeader (film : Film.t) (bannerUrl : str)
    (filmPeople : list Person.t) (filmLocations : list Location.t)
    (filmVehicles : list Vehicle.t) (uniqueSpecies : list str)
    (charactersHTML locationsHTML speciesHTML vehiclesHTML : str) : str :=
  (q "
    <header>
        <div class=`container`>
            <h1 class=`logo`>STUDIO GHIBLI</h1>
            <a href=`index.html` class=`back-btn`>← Back to All Films</a>
        </div>
    </header>

    <main class=`container`>
        <div id=`film-detail` class=`film-detail`>
            <div class=`detail-hero`>
                <img src=`" ++ bannerUrl ++ q "` alt=`" ++ Film.title film ++ q "` class=`detail-banner` onerror=`this.style.display='none'`>
            </div>
            
            <div class=`detail-header`>
                <h2>" ++ Film.title film ++ q "</h2>
                <div class=`detail-original-title`>" ++ Film.original_title film ++ q " (" ++ Film.original_title_romanised film ++ q ")</div>
                
                <div class=`info-grid`>
                    <div class=`info-box`>
                        <div class=`info-box-label`>Release Year</div>
                        <div class=`info-box-value`>" ++ Film.release_date film ++ q "</div>
                    </div>
                    <div class=`info-box`>
                        <div class=`info-box-label`>Director</div>
                        <div class=`info-box-value`>" ++ Film.director film ++ q "</div>
                    </div>
                    <div class=`info-box`>
                        <div class=`info-box-label`>Producer</div>
                        <div class=`info-box-value`>" ++ Film.producer film ++ q "</div>
                    </div>
                    <div class=`info-box`>
                        <div class=`info-box-label`>Running Time</div>
                        <div class=`info-box-value`>" ++ Film.running_time film ++ q " mins</div>
                    </div>
                    <div class=`info-box`>
                        <div class=`info-box-label`>RT Score</div>
                        <div class=`info-box-value`>⭐ " ++ Film.rt_score film ++ q "%</div>
                    </div>
                </div>
                
                <div class=`detail-description`>
                    " ++ Film.description film ++ q "
                </div>
            </div>
            
            <div class=`characters-section`>
                <h3 class=`section-title`>Characters (" ++ showNat (length filmPeople) ++ q ")</h3>
                <div id=`characters-grid` class=`characters-grid`>
                    " ++ orElse charactersHTML (q "<p style=`text-align: center; grid-column: 1/-1; color: var(--text-dark);`>No character information available.</p>") ++ q "
                </div>
            </div>
            
            <div class=`additional-section`>
                <h3 class=`section-title`>Additional Information</h3>
                
                <div class=`info-section`>
                    <h4>Locations (" ++ showNat (length filmLocations) ++ q ")</h4>
                    <div class=`info-list` id=`locations-list`>
                        " ++ locationsHTML ++ q "
                    </div>
                </div>
                
                <div class=`info-section`>
                    <h4>Species (" ++ showNat (length uniqueSpecies) ++ q ")</h4>
                    <div class=`info-list` id=`species-list`>
                        " ++ speciesHTML ++ q "
                    </div>
                </div>
                
                <div class=`info-section`>
                    <h4>Vehicles (" ++ showNat (length filmVehicles) ++ q ")</h4>
                    <div class=`info-list` id=`vehicles-list`>
                        " ++ vehiclesHTML ++ q "
                    </div>
                </div>
            </div>
        </div>
    </main>
    ").

Definition generateFilmPage (film : Film.t) (filmId : str) (data : Data)
    : result str :=
  filmLocations <- getLocationsForFilm filmId (locations data) ;;
  filmPeople <- getPeopleForFilm filmId (people data) ;;
  filmVehicles <- getVehiclesForFilm filmId (vehicles data) ;;
  let uniqueSpecies := newSet (speciesRefs filmPeople) in
  let imageId := replaceDashes filmId in
  let bannerUrl := (q "https://marsbj.folk.ntnu.no/images/banner_" ++ imageId ++ q ".webp") in
  cards <- mapM (filmCharacterCard data) filmPeople ;;
  let charactersHTML := join [] cards in
  let locationsHTML :=
    if (0 <? length filmLocations)%nat
    then join [] (map locationTag filmLocations)
    else noneTag in
  speciesHTML <- filmSpeciesHTML data uniqueSpecies ;;
  let vehiclesHTML :=
    if (0 <? length filmVehicles)%nat
    then join [] (map vehicleTag filmVehicles)
    else noneTag in
  let headerHTML :=
    filmHeader film bannerUrl filmPeople filmLocations filmVehicles
      uniqueSpecies charactersHTML locationsHTML speciesHTML vehiclesHTML in
  Ok (getBaseTemplate headerHTML (Film.title film ++ q " - Studio Ghibli")).

(** ** Species page *)

Definition collectionNames : list str :=
  [q "people"; q "locations"; q "species"; q "vehicles"; q "films"].

(** The filter applied to the reference URLs of a species: the last
    non-empty path segment is not the name of a collection. *)
Definition isEntityUrl (url : str) : bool :=
  let parts := filter (fun part => (0 <? length part)%nat) (split "/" url) in
  let lastPart := lastOf parts in
  negb (match lastPart with
        | Some lp => existsb (streq lp) collectionNames
        | None => false
        end).

(** [entity.id === wanted], where [wanted] may be [null]. *)
Definition sameId (entityId : str) (wanted : option str) : bool :=
  match wanted with
  | Some i => streq entityId i
  | None => false
  end.

(** [array.filter(x => x)] on an array of objects and [undefined]. *)
Definition somes {A} (l : list (option A)) : list A :=
  flat_map (fun o => match o with Some a => [a] | None => [] end) l.

(** The callbacks of the two [map] calls of [generateSpeciesPage]. *)
Definition resolvePerson (data : Data) (url : str) : result (option Person.t) :=
  let personId := getIdFromUrl url in
  ps <- deref (people data) ;;
  Ok (find (fun p => sameId (Person.id p) personId) ps).

Definition resolveFilm (data : Data) (url : str) : result (option Film.t) :=
  let filmId := getIdFromUrl url in
  fs <- deref (films data) ;;
  Ok (find (fun f => sameId (Film.id f) filmId) fs).

(** [speciesPeople] and [speciesFilms]. *)
Definition getSpeciesPeople (species : Species.t) (data : Data)
    : result (list Person.t) :=
  match Species.people species with
  | Some urls =>
      found <- mapM (resolvePerson data) (filter isEntityUrl urls) ;;
      Ok (somes found)
  | None => Ok []
  end.

Definition getSpeciesFilms (species : Species.t) (data : Data)
    : result (list Film.t) :=
  match Species.films species with
  | Some urls =>
      found <- mapM (resolveFilm data) (filter isEntityUrl urls) ;;
      Ok (somes found)
  | None => Ok []
  end.

(** The callback of [speciesPeople.map]: the card of one person. *)
Definition speciesCharacterCard (person : Person.t) : result str :=
  initials <- getInitials (Person.name person) ;;
  Ok (q "
        <div class=`character-card`>
            <div class=`character-avatar " ++ getAvatarColor (Person.gender person) ++ q "`>
                " ++ initials ++ q "
            </div>
            <h4>" ++ Person.name person ++ q "</h4>
            <div class=`character-details`>
                " ++ (ifTruthy (Person.gender person) (fun gender => (q "
                    <div class=`character-detail-item`>
                        <span class=`detail-label`>Gender:</span>
                        <span class=`detail-value`>" ++ capitalize gender ++ q "</span>
                    </div>
                ")) []) ++ q "
                " ++ (ifTruthy (Person.age person) (fun age => (q "
                    <div class=`character-detail-item`>
                        <span class=`detail-label`>Age:</span>
                        <span class=`detail-value`>" ++ age ++ q "</span>
                    </div>
                ")) []) ++ q "
                " ++ (ifTruthy (Person.eye_color person) (fun eye_color => (q "
                    <div class=`character-detail-item`>
                        <span class=`detail-label`>Eye Color:</span>
                        <span class=`detail-value`>" ++ capitalize eye_color ++ q "</span>
                    </div>
                ")) []) ++ q "
                " ++ (ifTruthy (Person.hair_color person) (fun hair_color => (q "
                    <div class=`character-detail-item`>
                        <span class=`detail-label`>Hair Color:</span>
                        <span class=`detail-value`>" ++ capitalize hair_color ++ q "</span>
                    </div>
                ")) []) ++ q "
            </div>
        </div>
    ").

(** The callback of [speciesFilms.map]. *)
Definition filmTag (film : Film.t) : str :=
  (q "<a href=`film_" ++ Film.id film ++ q ".html` class=`info-tag` style=`text-decoration: none; cursor: pointer;`>" ++ Film.title film ++ q "</a>").

(** The template literal [headerHTML] of [generateSpeciesPage]. *)
Definition speciesHeader (species : Species.t) (speciesPeople : list Person.t)
    (peopleHTML filmsHTML : str) : str :=
  (q "
    <header>
        <div class=`container`>
            <h1 class=`logo`>STUDIO GHIBLI</h1>
            <div style=`display: flex; gap: 15px; justify-content: center; flex-wrap: wrap;`>
                <a href=`index.html` class=`back-btn`>← All Films</a>
                <a href=`javascript:history.back()` class=`back-btn`>← Back</a>
            </div>
        </div>
    </header>

    <main class=`container`>
        <div id=`species-detail` class=`species-detail`>
            <div class=`species-hero " ++ getSpeciesHeroClass (Species.classification species) ++ q "`>
                <div class=`species-hero-content`>
                    <h2 class=`species-hero-title`>" ++ Species.name species ++ q "</h2>
                    <p class=`species-hero-subtitle`>" ++ orDefault (Species.classification species) (q "Unknown Classification") ++ q "</p>
                </div>
            </div>
            
            <div class=`detail-header`>
                <h2>" ++ Species.name species ++ q "</h2>
                
                <div class=`info-grid`>
                    <div class=`info-box`>
                        <div class=`info-box-label`>Classification</div>
                        <div class=`info-box-value`>" ++ orDefault (Species.classification species) (q "Unknown") ++ q "</div>
                    </div>
                    <div class=`info-box`>
                        <div class=`info-box-label`>Eye Colors</div>
                        <div class=`info-box-value`>" ++ orDefault (Species.eye_colors species) (q "Unknown") ++ q "</div>
                    </div>
                    <div class=`info-box`>
                        <div class=`info-box-label`>Hair Colors</div>
                        <div class=`info-box-value`>" ++ orDefault (Species.hair_colors species) (q "Unknown") ++ q "</div>
                    </div>
                </div>
            </div>
            
            <div class=`characters-section`>
                <h3 class=`section-title`>Characters of this Species (" ++ showNat (length speciesPeople) ++ q ")</h3>
                <div id=`people-grid` class=`characters-grid`>
                    " ++ orElse peopleHTML (q "<p style=`text-align: center; grid-column: 1/-1; color: var(--text-dark);`>No characters data available.</p>") ++ q "
                </div>
            </div>
            
            <div class=`additional-section`>
                <h3 class=`section-title`>Films Featuring this Species</h3>
                <div id=`films-list` class=`info-list`>
                    " ++ filmsHTML ++ q "
                </div>
            </div>
        </div>
    </main>
    ").

Definition generateSpeciesPage (species : Species.t) (speciesId : str)
    (data : Data) : result str :=
  speciesPeople <- getSpeciesPeople species data ;;
  speciesFilms <- getSpeciesFilms species data ;;
  cards <- mapM speciesCharacterCard speciesPeople ;;
  let peopleHTML := join [] cards in
  let filmsHTML :=
    if (0 <? length speciesFilms)%nat
    then join [] (map filmTag speciesFilms)
    else noneTag in
  let headerHTML := speciesHeader species speciesPeople peopleHTML filmsHTML in
  Ok (getSpeciesTemplate headerHTML (Species.name species ++ q " - Studio Ghibli")).

(** ** File generation

    The process state: the lines printed on the console and the files
    written, oldest first, named relative to the output directory
    [public/] (which [ensureDir] creates when it is missing). *)

Record World : Type := {
  console : list str;
  files : list (str * str)
}.

(** How a computation leaves: it returns, it raises an exception, or it
    ends the process through [process.exit]. *)
Inductive control (A : Type) : Type :=
| Return (a : A)
| Raise
| Exited (code : Z).
Arguments Raise {A}.
Arguments Exited {A} code.

Definition Proc (A : Type) : Type := World -> World * control A.

Definition ret {A} (a : A) : Proc A := fun w => (w, Return a).

Definition andThen {A B} (m : Proc A) (k : A -> Proc B) : Proc B :=
  fun w =>
    match m w with
    | (w', Return a) => k a w'
    | (w', Raise) => (w', Raise)
    | (w', Exited c) => (w', Exited c)
    end.

Local Notation "x <~ m ;; k" := (andThen m (fun x => k))
  (at level 61, m at next level, right associativity).
Local Notation "m >> k" := (andThen m (fun _ => k))
  (at level 61, right associativity).

Definition eval {A} (r : result A) : Proc A :=
  fun w => (w, match r with Ok a => Return a | TypeError => Raise end).

Definition console_log (line : str) : Proc unit :=
  fun w => ({| console := console w ++ [line]; files := files w |}, Return tt).

Definition writeFileSync (name content : str) : Proc unit :=
  fun w => ({| console := console w; files := files w ++ [(name, content)] |},
            Return tt).

Definition process_exit (code : Z) : Proc unit :=
  fun w => (w, Exited code).

Fixpoint forEach {A} (body : A -> Proc unit) (l : list A) : Proc unit :=
  match l with
  | [] => ret tt
  | x :: l' => body x >> forEach body l'
  end.

(** The bodies of the two loops of [generateStaticFiles]. *)
Definition writeFilmPage (minify : option (str -> str)) (data : Data)
    (film : Film.t) : Proc unit :=
  page <~ eval (generateFilmPage film (Film.id film) data) ;;
  writeFileSync (q "film_" ++ Film.id film ++ q ".html") (minifyHTML minify page).

Definition writeSpeciesPage (minify : option (str -> str)) (data : Data)
    (species : Species.t) : Proc unit :=
  page <~ eval (generateSpeciesPage species (Species.id species) data) ;;
  writeFileSync (q "species_" ++ Species.id species ++ q ".html")
    (minifyHTML minify page).

(** [data.films] is the array that [generateIndexPage] sorts, so the
    rest of the function runs on the dataset with the sorted films.  The
    value returned is the dataset as the call leaves it. *)
Definition generateStaticFiles (minify : option (str -> str)) (data : Data)
    : Proc Data :=
  console_log (q "Generating public/index.html...") >>
  index <~ eval (generateIndexPage (films data)) ;;
  let data := {| films := Some (fst index);
                 locations := locations data;
                 vehicles := vehicles data;
                 people := people data;
                 species := species data |} in
  writeFileSync (q "index.html") (minifyHTML minify (snd index)) >>
  console_log (q "✓ public/index.html generated") >>
  console_log (q "Generating film pages...") >>
  match films data with
  | Some fs =>
      forEach (writeFilmPage minify data) fs >>
      console_log (q "✓ " ++ showNat (length fs) ++ q " film pages generated")
  | None => ret tt
  end >>
  console_log (q "Generating species pages...") >>
  match species data with
  | Some ss =>
      forEach (writeSpeciesPage minify data) ss >>
      console_log (q "✓ " ++ showNat (length ss) ++ q " species pages generated")
  | None => ret tt
  end >>
  console_log (q "
✓ All static files generated successfully in public/") >>
  ret data.

(** ** Main *)

(** [responses] is what the five requests of [fetchAPI] produced. *)
Definition fetchAllData (responses : Data) : Proc Data :=
  console_log (q "Fetching data from Ghibli API...") >>
  console_log (q "✓ Data fetched successfully") >>
  ret responses.

Definition isNull {A} (o : option A) : bool :=
  match o with
  | Some _ => false
  | None => true
  end.

(** [collection.length] *)
Definition lengthOf {A} (collection : option (list A)) : Proc nat :=
  eval (l <- deref collection ;; Ok (length l)).

Definition mainBody (minify : option (str -> str)) (responses : Data)
    : Proc unit :=
  console_log (q "🎬 Studio Ghibli Static HTML Generator
") >>
  data <~ fetchAllData responses ;;
  (if isNull (films data) || isNull (people data) || isNull (species data)
   then console_log (q "❌ Failed to fetch required data") >> process_exit 1
   else ret tt) >>
  n <~ lengthOf (films data) ;;
  console_log (q "Loaded " ++ showNat n ++ q " films") >>
  n <~ lengthOf (people data) ;;
  console_log (q "Loaded " ++ showNat n ++ q " people") >>
  n <~ lengthOf (species data) ;;
  console_log (q "Loaded " ++ showNat n ++ q " species") >>
  n <~ lengthOf (locations data) ;;
  console_log (q "Loaded " ++ showNat n ++ q " locations") >>
  n <~ lengthOf (vehicles data) ;;
  console_log (q "Loaded " ++ showNat n ++ q " vehicles
") >>
  data <~ generateStaticFiles minify data ;;
  console_log (q "
✨ Generation complete! Generated files in public/:") >>
  console_log (q "  - index.html") >>
  n <~ lengthOf (films data) ;;
  console_log (q "  - film_[id].html (" ++ showNat n ++ q " files)") >>
  n <~ lengthOf (species data) ;;
  console_log (q "  - species_[id].html (" ++ showNat n ++ q " files)").

Definition startup : World := {| console := []; files := [] |}.

(** The process: the final state and the exit status.  The handler of
    [main] prints the exception after its message; only the message is
    kept here. *)
Definition main (minify : option (str -> str)) (responses : Data)
    : World * Z :=
  match mainBody minify responses startup with
  | (w, Return _) => (w, 0%Z)
  | (w, Exited code) => (w, code)
  | (w, Raise) =>
      ({| console := console w ++ [q "❌ Fatal error:"]; files := files w |}, 1%Z)
  end.

End Generator.

(* ================================================================= *)
(** * The soot-sprite easter egg

    Numbers are exact rationals: the rounding of binary64 arithmetic is
    not part of the model.  [random n] is the value returned by the
    [n]-th call of [Math.random] on the page. *)

Module Soot.
Import JS.

Record Particle : Type := {
  size : Q;
  angle : Q;
  dist : Q;
  upwardBias : Q;
  tx : Z;
  ty : Z;
  rot : Z;
  left : Q;
  top : Q
}.

(** What a pending timer does when it fires. *)
Inductive Action : Type :=
| HideSprite
| RemoveParticle (index : nat).

(** The clicked sprite, the particles appended to the document body,
    the timers set (delay in milliseconds) and the number of calls of
    [Math.random] made so far. *)
Record Page : Type := {
  classList : list str;
  animation : str;
  body : list Particle;
  timers : list (Z * Action);
  draws : nat
}.

Section Animation.

Variable random : nat -> Q.
Variables cos sin : Q -> Q.
Variable PI : Q.

(** [Math.round] *)
Definition round (x : Q) : Z := Qfloor (x + (1 # 2)).

Definition createParticle (x y : Q) (pg : Page) : Page :=
  let n := draws pg in
  let size := 4 + random n * 4 in
  let angle := random (n + 1) * PI * 2 in
  let dist := 40 + random (n + 2) * 120 in
  let upwardBias := - (20) - random (n + 3) * 60 in
  let tx := round (cos angle * dist) in
  let ty := round (sin angle * dist + upwardBias) in
  let rot := round ((random (n + 4) - (1 # 2)) * 720) in
  let p := {| size := size; angle := angle; dist := dist;
              upwardBias := upwardBias; tx := tx; ty := ty; rot := rot;
              left := x - size / 2; top := y - size / 2 |} in
  {| classList := classList pg;
     animation := animation pg;
     body := body pg ++ [p];
     timers := timers pg ++ [(1450%Z, RemoveParticle (length (body pg)))];
     draws := n + 5 |}.

Definition particleCount (r : Q) : Z := (22 + Qfloor (r * 16))%Z.

Definition triggerSootExplosion (clickX clickY : Q) (pg : Page) : Page :=
  if existsb (streq (q "soot-exploding")) (classList pg) then pg
  else
    let particles := particleCount (random (draws pg)) in
    let marked :=
      {| classList := classList pg ++ [q "soot-exploding"];
         animation := q "sootDisintegrate 1100ms ease-out forwards";
         body := body pg;
         timers := timers pg;
         draws := draws pg + 1 |} in
    let spawned :=
      Nat.iter (Z.to_nat particles) (createParticle clickX clickY) marked in
    {| classList := classList spawned;
       animation := animation spawned;
       body := body spawned;
       timers := timers spawned ++ [(1100%Z, HideSprite)];
       draws := draws spawned |}.

End Animation.

(** The callback of the timer that [triggerSootExplosion] sets on the
    sprite: [classList.add] adds a class that is not there yet,
    [classList.remove] removes it wherever it is.  [timers] records the
    timers that were set; it is not changed when one fires. *)
Definition hideSprite (pg : Page) : Page :=
  {| classList :=
       filter (fun c => negb (streq c (q "soot-exploding")))
              (Set_add (classList pg) (q "soot-hidden"));
     animation := [];
     body := body pg;
     timers := timers pg;
     draws := draws pg |}.

End Soot.

Unset Implicit Arguments.
(* ================================================================= *)
(** * Vocabulary of the properties *)

Module Terms.
Import JS Generator.

(** [x] occurs in [s] as a contiguous piece. *)
Definition Within (x s : str) : Prop := exists a b, s = a ++ x ++ b.

Definition endsWith (s t : str) : bool := startsWith (rev s) (rev t).

(** [AnyCase g w]: [g] spells the lower-case word [w] with each letter
    in either case. *)
Inductive AnyCase : str -> str -> Prop :=
| AnyCase_nil : AnyCase [] []
| AnyCase_cons c t g w :
    c = t \/ (code c + 32 = code t)%Z ->
    AnyCase g w -> AnyCase (c :: g) (t :: w).

Definition lowerLetter (c : ascii) : Prop := (97 <= code c <= 122)%Z.

(** The same Number value. *)
Definition sameNumber (a b : Number) : bool :=
  match a, b with
  | NaN, NaN => true
  | Inf s, Inf t => Bool.eqb s t
  | Fin x, Fin y => (x =? y)%Z
  | _, _ => false
  end.

(** The release year the index page sorts on. *)
Definition releaseYear (film : Film.t) : Number :=
  parseInt (Film.release_date film).

(** [a] may stand before [b] in ascending order: [b < a] is false. *)
Definition ascending (a b : Number) : Prop := lt b a = false.

(** The comparator that subtracts the keys of its arguments. *)
Definition byKey {A} (key : A -> Number) (a b : A) : Number :=
  sub (key a) (key b).

Definition inOrder {A} (key : A -> Number) (a b : A) : Prop :=
  ascending (key a) (key b).


(** The associations of a film, as the three filters compute them. *)
Definition filmLocationsOf (filmId : str) (ls : list Location.t) :=
  filter (fun location => matchesFilm filmId (Location.films location)) ls.

Definition filmPeopleOf (filmId : str) (ps : list Person.t) :=
  filter (fun person => matchesFilm filmId (Person.films person)) ps.

Definition filmVehiclesOf (filmId : str) (vs : list Vehicle.t) :=
  filter (fun vehicle => matchesFilm filmId (Vehicle.films vehicle)) vs.

(** The species a reference resolves to in a non-null collection. *)
Definition resolveSpecies (ss : list Species.t) (ref : str) : option Species.t :=
  find (fun species =>
          streq (Species.id species)
            (if includes ref (q "/") then last (split "/" ref) [] else ref)) ss.

(** The species references of a film's people, without repetition. *)
Definition uniqueSpeciesOf (filmId : str) (ps : list Person.t) : list str :=
  newSet (speciesRefs (filmPeopleOf filmId ps)).

(** Pieces of the pages, as they stand in the generated HTML. *)

Definition charactersSection (n : nat) (html : str) : str :=
  q "<h3 class=`section-title`>Characters (" ++ showNat n ++ q ")</h3>
                <div id=`characters-grid` class=`characters-grid`>
                    " ++ html ++ q "
                </div>".

Definition locationsSection (n : nat) (html : str) : str :=
  q "<h4>Locations (" ++ showNat n ++ q ")</h4>
                    <div class=`info-list` id=`locations-list`>
                        " ++ html ++ q "
                    </div>".

Definition speciesSection (n : nat) (html : str) : str :=
  q "<h4>Species (" ++ showNat n ++ q ")</h4>
                    <div class=`info-list` id=`species-list`>
                        " ++ html ++ q "
                    </div>".

Definition vehiclesSection (n : nat) (html : str) : str :=
  q "<h4>Vehicles (" ++ showNat n ++ q ")</h4>
                    <div class=`info-list` id=`vehicles-list`>
                        " ++ html ++ q "
                    </div>".

Definition filmsGrid (html : str) : str :=
  q "<div id=`films-grid` class=`films-grid`>
            " ++ html ++ q "
        </div>".

Definition noCharacters : str :=
  q "<p style=`text-align: center; grid-column: 1/-1; color: var(--text-dark);`>No character information available.</p>".


(** The species name and link target shown on a character card when
    the species collection is [ss]. *)
Definition characterSpeciesOf (ss : list Species.t) (person : Person.t)
    : str * option str :=
  ifTruthy (Person.species person) (fun ref =>
    (match resolveSpecies ss ref with
     | Some sd => orElse (Species.name sd) (q "Unknown")
     | None => q "Unknown"
     end, Some ref))
    (q "Unknown", None).

(** The species tags of a film page: one per reference that resolves. *)
Definition speciesTagsOf (ss : list Species.t) (refs : list str) : list str :=
  map speciesTag (somes (map (resolveSpecies ss) refs)).

Definition tagsOrNone (tags : list str) (shown : nat) : str :=
  if (0 <? shown)%nat then join [] tags else noneTag.

(** Link targets and the names of the files written. *)
Definition filmFile (filmId : str) : str := q "film_" ++ filmId ++ q ".html".
Definition speciesFile (speciesId : str) : str :=
  q "species_" ++ speciesId ++ q ".html".

Definition hrefTo (target : str) : str := q "href=`" ++ target ++ q "`".

(** A species record with other reference lists. *)
Definition withPeople (species : Species.t) (urls : list str) : Species.t :=
  {| Species.id := Species.id species;
     Species.name := Species.name species;
     Species.classification := Species.classification species;
     Species.eye_colors := Species.eye_colors species;
     Species.hair_colors := Species.hair_colors species;
     Species.people := Some urls;
     Species.films := Species.films species |}.

Definition withFilms (species : Species.t) (urls : list str) : Species.t :=
  {| Species.id := Species.id species;
     Species.name := Species.name species;
     Species.classification := Species.classification species;
     Species.eye_colors := Species.eye_colors species;
     Species.hair_colors := Species.hair_colors species;
     Species.people := Species.people species;
     Species.films := Some urls |}.

(** The dataset after [generateIndexPage] has sorted its films. *)
Definition withSortedFilms (data : Data) : Data :=
  {| films := option_map (sort byReleaseYear) (films data);
     locations := locations data;
     vehicles := vehicles data;
     people := people data;
     species := species data |}.

(** The names of the files a complete run writes, in order. *)
Definition expectedFiles (fs : list Film.t) (ss : list Species.t) : list str :=
  q "index.html"
  :: map (fun film => filmFile (Film.id film)) (sort byReleaseYear fs)
  ++ map (fun species => speciesFile (Species.id species)) ss.



(** The name [getInitials] accepts. *)
Definition hasInitials (name : str) : Prop :=
  exists initials, getInitials name = Ok initials.

End Terms.

(* ================================================================= *)
(** * Sample datasets *)

Module Samples.
Import JS Generator.

Definition film (id year : string) : Film.t :=
  {| Film.id := q id;
     Film.title := q "Film " ++ q id;
     Film.original_title := q "Original " ++ q id;
     Film.original_title_romanised := q "Romanised " ++ q id;
     Film.director := q "Hayao Miyazaki";
     Film.producer := q "Isao Takahata";
     Film.release_date := q year;
     Film.running_time := q "124";
     Film.rt_score := q "95";
     Film.description := q "A film." |}.

Definition person (id name : string) (gender species : option string)
    (filmUrls : list string) : Person.t :=
  {| Person.id := q id;
     Person.name := q name;
     Person.gender := option_map q gender;
     Person.age := Some (q "13");
     Person.eye_color := Some (q "black");
     Person.hair_color := None;
     Person.species := option_map q species;
     Person.films := Some (map q filmUrls) |}.

Definition speciesRecord (id name : string) (peopleUrls filmUrls : list string)
    : Species.t :=
  {| Species.id := q id;
     Species.name := q name;
     Species.classification := Some (q "Mammal");
     Species.eye_colors := Some (q "Black, Blue");
     Species.hair_colors := None;
     Species.people := Some (map q peopleUrls);
     Species.films := Some (map q filmUrls) |}.

Definition dataset (fs : list Film.t) (ps : list Person.t)
    (ss : list Species.t) : Data :=
  {| films := Some fs;
     locations := Some [];
     vehicles := Some [];
     people := Some ps;
     species := Some ss |}.

Definition f1 : Film.t := film "f1" "1988".
Definition f2 : Film.t := film "f2" "1986".
Definition f3 : Film.t := film "f3" "1989".

(** A person of film [f1], of species [s1]. *)
Definition satsuki : Person.t :=
  person "p1" "Satsuki Kusakabe" (Some "Female"%string)
    (Some "https://api/species/s1"%string) ["https://api/films/f1"%string].

(** A person whose only film reference ends in [f12]. *)
Definition stranger : Person.t :=
  person "p2" "Stranger" (Some "Male"%string) None
    ["https://api/films/f12"%string].


Definition human : Species.t :=
  speciesRecord "s1" "Human"
    ["https://api/people/p1"%string; "https://api/people"%string]
    ["https://api/films/f1"%string].

Definition castle : Location.t :=
  {| Location.id := q "l1"; Location.name := q "Castle";
     Location.films := Some [q "https://api/films/f1"] |}.

Definition catalog : Data :=
  {| films := Some [f3; f2; f1];
     locations := Some [castle];
     vehicles := Some [];
     people := Some [satsuki; stranger];
     species := Some [human] |}.

(** The catalog as fetched when the locations request failed. *)
Definition catalogWithoutLocations : Data :=
  {| films := films catalog;
     locations := None;
     vehicles := vehicles catalog;
     people := people catalog;
     species := species catalog |}.

(** Three films, the second with a release date that is not a number. *)
Definition undated : list Film.t :=
  [film "a" "2000"; film "b" "to be announced"; film "c" "1990"].

(** A sprite of the index page that has not been clicked. *)
Definition sprite : Soot.Page :=
  {| Soot.classList := [q "soot-sprite"];
     Soot.animation := [];
     Soot.body := [];
     Soot.timers := [];
     Soot.draws := 0 |}.

Definition halfDraws (n : nat) : Q := 1 # 2.

(** Stand-ins for [Math.cos], [Math.sin] and [Math.PI]. *)
Definition flatCos (x : Q) : Q := 1.
Definition flatSin (x : Q) : Q := 0.
Definition approxPI : Q := 355 # 113.

End Samples.

(* ================================================================= *)
(** * Further vocabulary

    Notions used by the statements on the helper functions, the
    written files and the sprite timer. *)

Module Notions.
Import JS Generator Terms.

Definition space : ascii := " "%char.
Definition slash : ascii := "/"%char.

(** The first and the last character of a string. *)
Definition firstChar (s : str) : option ascii := hd_error s.
Definition lastChar (s : str) : option ascii := lastOf s.

(** A text of ASCII characters only: the data on which the case mappings
    of the embedding are those of JavaScript. *)
Definition asciiText (s : str) : Prop := Forall (fun c => (code c < 128)%Z) s.

(** An id that can stand in a file name: it has no path separator. *)
Definition backslash : ascii := ascii_of_nat 92.

Definition plainId (id : str) : Prop := ~ In slash id /\ ~ In backslash id.

(** A string that no call of [toUpperCase] changes. *)
Definition upperCased (s : str) : Prop := toUpperCase s = s.

(** The callback of [map] in [capitalize]. *)
Definition capitalizeWord (word : str) : str :=
  toUpperCase (firstn 1 word) ++ toLowerCase (skipn 1 word).

(** [ref] is [id] itself or an address whose text after the last slash
    is [id]. *)
Definition refersTo (ref id : str) : Prop :=
  ~ In slash id /\ (ref = id \/ exists base, ref = base ++ slash :: id).




(** Pieces of a species page. *)
Definition speciesCharactersSection (n : nat) (html : str) : str :=
  q "<h3 class=`section-title`>Characters of this Species (" ++ showNat n ++ q ")</h3>
                <div id=`people-grid` class=`characters-grid`>
                    " ++ html ++ q "
                </div>".

Definition noSpeciesCharacters : str :=
  q "<p style=`text-align: center; grid-column: 1/-1; color: var(--text-dark);`>No characters data available.</p>".

Definition speciesFilmsList (html : str) : str :=
  q "<div id=`films-list` class=`info-list`>
                    " ++ html ++ q "
                </div>".

(** The people and films that the references of a species lead to:
    the addresses of whole collections are left out, and so is every
    reference that matches no record. *)
Definition referencedPeople (ps : list Person.t) (urls : list str)
    : list Person.t :=
  somes (map (fun url => find (fun p => sameId (Person.id p) (getIdFromUrl url)) ps)
             (filter isEntityUrl urls)).

Definition referencedFilms (fs : list Film.t) (urls : list str)
    : list Film.t :=
  somes (map (fun url => find (fun f => sameId (Film.id f) (getIdFromUrl url)) fs)
             (filter isEntityUrl urls)).

(** The references of a record that has none are the empty array. *)
Definition refsOf (urls : option (list str)) : list str :=
  match urls with
  | Some l => l
  | None => []
  end.



(** The state and the exit status of the process. *)
Definition finalState (minify : option (str -> str)) (data : Data) : World :=
  fst (main minify data).

Definition exitStatus (minify : option (str -> str)) (data : Data) : Z :=
  snd (main minify data).

(** The sprite has the class that marks a running explosion. *)
Definition exploding (pg : Soot.Page) : bool :=
  existsb (streq (q "soot-exploding")) (Soot.classList pg).

Definition hidden (pg : Soot.Page) : Prop :=
  In (q "soot-hidden") (Soot.classList pg).


(** The offsets that the animation moves a particle by. *)
Definition trajectoryInRange (p : Soot.Particle) : Prop :=
  (-160 <= Soot.tx p <= 160)%Z /\ (-240 <= Soot.ty p <= 140)%Z.

(** A name that begins with a space and ends with a space. *)
Definition blankEnded (name : str) : Prop :=
  firstChar name = Some space /\ lastChar name = Some space.


End Notions.

(** * Further samples *)

Module Cases.
Import JS Generator.

(** A second species, with a reference that resolves to no person and
    two that resolve to the same person. *)
Definition cat : Species.t :=
  Samples.speciesRecord "s2" "Cat"
    ["https://api/people/p9"%string; "https://api/people/p1"%string;
     "https://api/people/p1"%string]
    ["https://api/films/f2"%string; "https://api/films/f1"%string].



(** The catalog as fetched when the films request failed. *)
Definition catalogWithoutFilms : Data :=
  {| films := None;
     locations := locations Samples.catalog;
     vehicles := vehicles Samples.catalog;
     people := people Samples.catalog;
     species := species Samples.catalog |}.

End Cases.
(* ================================================================= *)
(** * Facts about the JavaScript primitives *)

Section StringFacts.
Import JS Generator Terms.

Lemma streq_true_iff (a b : str) : streq a b = true <-> a = b.
Proof.
  revert b; induction a as [|x a IH]; intros [|y b]; simpl; split;
    try discriminate; try reflexivity.
  - rewrite andb_true_iff, Ascii.eqb_eq, IH. now intros [-> ->].
  - intros [= -> ->]. now rewrite Ascii.eqb_refl, (proj2 (IH b)).
Qed.

Lemma streq_refl (a : str) : streq a a = true.
Proof. now apply streq_true_iff. Qed.

Lemma streq_false_iff (a b : str) : streq a b = false <-> a <> b.
Proof.
  rewrite <- streq_true_iff. destruct (streq a b); split; congruence.
Qed.

Lemma startsWith_app (s t : str) : startsWith s t = true <-> exists r, s = t ++ r.
Proof.
  revert s; induction t as [|y t IH]; intros s; simpl.
  - split; [intros _; now exists s | now destruct s].
  - destruct s as [|x s]; simpl.
    + split; [discriminate | intros [r [=]]].
    + rewrite andb_true_iff, Ascii.eqb_eq, IH. split.
      * intros [-> [r ->]]. now exists r.
      * intros [r [= -> ->]]. split; [reflexivity | now exists r].
Qed.

Lemma endsWith_app (s t : str) : endsWith s t = true -> exists p, s = p ++ t.
Proof.
  unfold endsWith. rewrite startsWith_app. intros [r H].
  exists (rev r). apply (f_equal (@rev ascii)) in H.
  now rewrite rev_involutive, rev_app_distr, rev_involutive in H.
Qed.

Lemma includes_unfold (s t : str) :
  includes s t =
  startsWith s t || match s with [] => false | _ :: s' => includes s' t end.
Proof. now destruct s. Qed.

Lemma includes_within (s t : str) : includes s t = true <-> Within t s.
Proof.
  induction s as [|x s IH]; rewrite includes_unfold.
  - rewrite orb_false_r, startsWith_app. split.
    + intros [r H]. exists [], r. exact H.
    + intros [a [b H]]. destruct a; [now exists b|discriminate].
  - rewrite orb_true_iff, startsWith_app, IH. split.
    + intros [[r H] | [a [b H]]].
      * exists [], r. exact H.
      * exists (x :: a), b. simpl. now rewrite H.
    + intros [[|y a] [b H]].
      * left. now exists b.
      * right. injection H as _ H. now exists a, b.
Qed.

Lemma within_refl (x : str) : Within x x.
Proof. exists [], []. now rewrite app_nil_r. Qed.

Lemma within_app_r (x p s : str) : Within x s -> Within x (p ++ s).
Proof. intros [a [b ->]]. exists (p ++ a), b. now rewrite app_assoc. Qed.

Lemma within_app_l (x s p : str) : Within x s -> Within x (s ++ p).
Proof.
  intros [a [b ->]]. exists a, (b ++ p). now rewrite <- !app_assoc.
Qed.

Lemma within_trans (x y z : str) : Within x y -> Within y z -> Within x z.
Proof.
  intros [a [b ->]] [c [d ->]]. exists (c ++ a), (b ++ d).
  now rewrite <- !app_assoc.
Qed.

(** A piece that starts at the end of one literal, spans [m] and stops
    inside the next literal. *)
Lemma within_between (c1 c2 x1 x2 m rest : str) :
  endsWith c1 x1 = true -> startsWith c2 x2 = true ->
  Within (x1 ++ m ++ x2) (c1 ++ m ++ c2 ++ rest).
Proof.
  intros H1 H2. apply endsWith_app in H1 as [p ->].
  apply startsWith_app in H2 as [r ->].
  exists p, (r ++ rest). now rewrite <- !app_assoc.
Qed.

Lemma within_between_end (c1 c2 x1 x2 m : str) :
  endsWith c1 x1 = true -> startsWith c2 x2 = true ->
  Within (x1 ++ m ++ x2) (c1 ++ m ++ c2).
Proof.
  intros H1 H2. rewrite <- (app_nil_r c2). now apply within_between.
Qed.

Lemma join_nil_concat (parts : list str) : join [] parts = concat parts.
Proof.
  induction parts as [|p [|p' rest] IH]; simpl in *.
  - reflexivity.
  - now rewrite app_nil_r.
  - now rewrite IH.
Qed.

Lemma within_concat (x : str) (parts : list str) :
  In x parts -> Within x (concat parts).
Proof.
  induction parts as [|p parts IH]; simpl; [easy|].
  intros [-> | H].
  - exists [], (concat parts). reflexivity.
  - now apply within_app_r, IH.
Qed.

End StringFacts.

Section CaseFacts.
Import JS Generator Terms.

Lemma lowerChar_lower_iff (c t : ascii) :
  lowerLetter t ->
  lowerChar c = t <-> c = t \/ (code c + 32 = code t)%Z.
Proof.
  unfold lowerLetter, lowerChar, code. intros Ht.
  pose proof (nat_ascii_bounded c) as Hc.
  destruct ((65 <=? Z.of_nat (nat_of_ascii c))%Z
            && (Z.of_nat (nat_of_ascii c) <=? 90)%Z) eqn:E.
  - apply andb_true_iff in E as [E1 E2].
    apply Z.leb_le in E1, E2. split.
    + intros H. right. apply (f_equal nat_of_ascii) in H.
      rewrite nat_ascii_embedding in H by lia. lia.
    + intros [-> | H]; [lia|].
      replace (nat_of_ascii c + 32)%nat with (nat_of_ascii t) by lia.
      apply ascii_nat_embedding.
  - split; [now left|]. intros [H | H]; [exact H|].
    apply andb_false_iff in E as [E | E];
      [apply Z.leb_gt in E | apply Z.leb_gt in E]; lia.
Qed.

Lemma toLowerCase_anycase (w : str) :
  Forall lowerLetter w ->
  forall g, toLowerCase g = w <-> AnyCase g w.
Proof.
  induction 1 as [|t w Ht Hw IH]; intros g.
  - split.
    + destruct g; [constructor | discriminate].
    + now inversion 1.
  - split.
    + destruct g as [|c g]; [discriminate|]. simpl. intros [= H1 H2].
      constructor; [now apply lowerChar_lower_iff | now apply IH].
    + inversion 1; subst. simpl. f_equal.
      * now apply lowerChar_lower_iff.
      * now apply IH.
Qed.

Lemma getAvatarColor_some (g : str) :
  getAvatarColor (Some g) =
  if streq (toLowerCase g) (q "female") then q "avatar-female"
  else if streq (toLowerCase g) (q "male") then q "avatar-male"
  else q "avatar-neutral".
Proof. now destruct g. Qed.

Lemma female_lower : Forall lowerLetter (q "female").
Proof.
  apply Forall_forall. intros c Hc. vm_compute in Hc.
  repeat (destruct Hc as [<- | Hc]; [vm_compute; split; discriminate|]).
  destruct Hc.
Qed.

Lemma male_lower : Forall lowerLetter (q "male").
Proof.
  apply Forall_forall. intros c Hc. vm_compute in Hc.
  repeat (destruct Hc as [<- | Hc]; [vm_compute; split; discriminate|]).
  destruct Hc.
Qed.

End CaseFacts.

Section UrlFacts.
Import JS Generator Terms.

Lemma lastOf_snoc {A} (l : list A) (x : A) : lastOf (l ++ [x]) = Some x.
Proof.
  unfold lastOf. rewrite map_app. simpl. apply last_last.
Qed.

Lemma lastOf_some {A} (l : list A) (x : A) :
  lastOf l = Some x -> exists l', l = l' ++ [x].
Proof.
  destruct l as [|y l] using rev_ind.
  - discriminate.
  - rewrite lastOf_snoc. intros [= ->]. now exists l.
Qed.

Lemma lastOf_filter {A} (keep : A -> bool) (l : list A) (x : A) :
  lastOf l = Some x -> keep x = true -> lastOf (filter keep l) = Some x.
Proof.
  intros H K. apply lastOf_some in H as [l' ->].
  rewrite filter_app. simpl. rewrite K. apply lastOf_snoc.
Qed.

Lemma getIdFromUrl_lastOf (url i : str) :
  getIdFromUrl url = Some i -> lastOf (split "/" url) = Some i.
Proof. unfold getIdFromUrl. now destruct (isEmpty url). Qed.

Lemma collection_name_nonempty (n : str) :
  In n collectionNames -> (0 <? length n)%nat = true.
Proof.
  unfold collectionNames. simpl.
  intros [<- | [<- | [<- | [<- | [<- | []]]]]]; reflexivity.
Qed.

Lemma isEntityUrl_collection_name (url n : str) :
  getIdFromUrl url = Some n -> In n collectionNames ->
  isEntityUrl url = false.
Proof.
  intros H Hn. apply getIdFromUrl_lastOf in H. unfold isEntityUrl.
  rewrite (lastOf_filter _ _ _ H (collection_name_nonempty _ Hn)).
  apply negb_false_iff, existsb_exists. exists n. split; [exact Hn|].
  apply streq_refl.
Qed.

Lemma filter_drop {A} (keep : A -> bool) (l1 l2 : list A) (x : A) :
  keep x = false -> filter keep (l1 ++ x :: l2) = filter keep (l1 ++ l2).
Proof. intros H. rewrite !filter_app. simpl. now rewrite H. Qed.

End UrlFacts.

Ltac bool_cases := repeat match goal with b : bool |- _ => destruct b end.

Section NumberFacts.
Import JS Generator Terms.

Lemma toNumber_positive (z : Z) : isPositive (toNumber z) = (0 <? z)%Z.
Proof.
  unfold toNumber.
  destruct (Z.abs z <? 2 ^ 53)%Z eqn:E; [reflexivity|].
  apply Z.ltb_ge in E.
  set (a := Z.abs z) in *. set (e := (Z.log2 a - 52)%Z).
  set (m := Z.shiftr a e).
  set (m' := if (a - Z.shiftl m e <? Z.shiftl 1 (e - 1))%Z then m
             else if (Z.shiftl 1 (e - 1) <? a - Z.shiftl m e)%Z then (m + 1)%Z
             else if Z.even m then m else (m + 1)%Z).
  assert (Ha : (0 < a)%Z) by (assert (0 < 2 ^ 53)%Z by reflexivity; lia).
  assert (He : (1 <= e)%Z).
  { assert (53 <= Z.log2 a)%Z by (apply Z.log2_le_pow2; assumption). lia. }
  assert (Hm : (0 < m)%Z).
  { unfold m. rewrite Z.shiftr_div_pow2 by lia.
    apply Z.div_str_pos. split; [apply Z.pow_pos_nonneg; lia|].
    transitivity (2 ^ Z.log2 a)%Z.
    - apply Z.pow_le_mono_r; lia.
    - apply Z.log2_spec. exact Ha. }
  assert (Hm' : (0 < m')%Z).
  { unfold m'. repeat match goal with |- context [if ?c then _ else _] =>
      destruct c end; lia. }
  assert (Hv : (0 < Z.shiftl m' e)%Z).
  { rewrite Z.shiftl_mul_pow2 by lia.
    apply Z.mul_pos_pos; [exact Hm'|apply Z.pow_pos_nonneg; lia]. }
  destruct (2 ^ 1024 <=? Z.shiftl m' e)%Z; [reflexivity|].
  unfold isPositive. subst a.
  destruct z as [|p|p]; simpl Z.sgn.
  - simpl in Ha. lia.
  - rewrite Z.mul_1_l. apply Z.ltb_lt in Hv. rewrite Hv. reflexivity.
  - transitivity false; [|reflexivity]. apply Z.ltb_ge. lia.
Qed.

Lemma positive_sub (a b : Number) : isPositive (sub a b) = lt b a.
Proof.
  destruct a as [|s|x], b as [|t|y]; simpl; try reflexivity.
  - destruct s, t; reflexivity.
  - rewrite toNumber_positive. apply eq_true_iff_eq.
    rewrite !Z.ltb_lt. lia.
Qed.

Lemma lt_irrefl_pair (a b : Number) : lt a b = true -> lt b a = false.
Proof.
  destruct a, b; simpl; intros H; bool_cases; simpl in *;
    try reflexivity; try discriminate.
  apply Z.ltb_lt in H. apply Z.ltb_ge. lia.
Qed.

Lemma lt_differs (a b k : Number) :
  lt a b = true -> sameNumber a k = true -> sameNumber b k = false.
Proof.
  destruct a, b, k; simpl; intros H1 H2; bool_cases; simpl in *;
    try reflexivity; try discriminate.
  apply Z.ltb_lt in H1. apply Z.eqb_eq in H2. apply Z.eqb_neq. lia.
Qed.

Lemma ascending_total (a b : Number) :
  lt b a = true -> ascending b a.
Proof. apply lt_irrefl_pair. Qed.

Lemma ascending_trans (a b c : Number) :
  b <> NaN -> ascending a b -> ascending b c -> ascending a c.
Proof.
  unfold ascending.
  destruct a, b, c; simpl; intros Hb H1 H2; bool_cases; simpl in *;
    try reflexivity; try discriminate; try congruence.
  apply Z.ltb_ge in H1, H2. apply Z.ltb_ge. lia.
Qed.

End NumberFacts.

Section SortFacts.
Import JS Generator Terms.

Variable A : Type.
Variable key : A -> Number.

Lemma insert_perm (x : A) (l : list A) :
  Permutation (x :: l) (insert (byKey key) x l).
Proof.
  induction l as [|y l IH]; simpl; [reflexivity|].
  destruct (isPositive ((byKey key) x y)); [|reflexivity].
  rewrite perm_swap. now constructor.
Qed.

Lemma sort_perm (l : list A) : Permutation l (sort (byKey key) l).
Proof.
  induction l as [|x l IH]; simpl; [constructor|].
  rewrite <- insert_perm. now constructor.
Qed.

Lemma sort_in (l : list A) (x : A) : In x (sort (byKey key) l) <-> In x l.
Proof.
  split; apply Permutation_in; [symmetry|]; apply sort_perm.
Qed.

Lemma insert_sorted (x : A) (l : list A) :
  key x <> NaN -> Forall (fun a => key a <> NaN) l ->
  StronglySorted (inOrder key) l -> StronglySorted (inOrder key) (insert (byKey key) x l).
Proof.
  intros Hx Hl Hs. induction Hs as [|y l Hs IH Hy]; simpl.
  - repeat constructor.
  - inversion Hl as [|? ? Hny Hl']; subst.
    unfold byKey at 1. rewrite positive_sub.
    destruct (lt (key y) (key x)) eqn:E.
    + constructor; [now apply IH|].
      apply Forall_forall. intros z Hz.
      apply (Permutation_in _ (Permutation_sym (insert_perm x l))) in Hz.
      destruct Hz as [<- | Hz].
      * now apply ascending_total.
      * rewrite Forall_forall in Hy. now apply Hy.
    + constructor; [now constructor|].
      constructor; [exact E|].
      apply Forall_forall. intros z Hz. rewrite Forall_forall in Hy.
      apply (ascending_trans (key x) (key y) (key z)); auto.
      now apply Hy.
Qed.

Lemma sort_sorted (l : list A) :
  Forall (fun a => key a <> NaN) l -> StronglySorted (inOrder key) (sort (byKey key) l).
Proof.
  induction 1 as [|x l Hx Hl IH]; [constructor|].
  cbn [sort fold_right]. fold (sort (byKey key) l).
  apply insert_sorted; [exact Hx| |exact IH].
  apply Forall_forall. intros z Hz. apply (proj1 (sort_in _ _)) in Hz.
  rewrite Forall_forall in Hl. now apply Hl.
Qed.

Lemma insert_stable (k : Number) (x : A) (l : list A) :
  filter (fun a => sameNumber (key a) k) (insert (byKey key) x l) =
  filter (fun a => sameNumber (key a) k) (x :: l).
Proof.
  induction l as [|y l IH]; [reflexivity|].
  cbn [insert]. unfold byKey at 1. rewrite positive_sub.
  destruct (lt (key y) (key x)) eqn:E; [|reflexivity].
  cbn [filter] in *. rewrite IH.
  destruct (sameNumber (key y) k) eqn:Ey; [|reflexivity].
  now rewrite (lt_differs _ _ _ E Ey).
Qed.

Lemma sort_stable (k : Number) (l : list A) :
  filter (fun a => sameNumber (key a) k) (sort (byKey key) l) =
  filter (fun a => sameNumber (key a) k) l.
Proof.
  induction l as [|x l IH]; [reflexivity|].
  cbn [sort fold_right]. rewrite insert_stable. cbn [filter].
  fold (sort (byKey key) l). now rewrite IH.
Qed.





End SortFacts.

Arguments JS.q : simpl never.

Section MonadFacts.
Import JS Generator Terms.

Lemma mapM_total {A B} (f : A -> result B) (g : A -> B) (l : list A) :
  (forall x, In x l -> f x = Ok (g x)) -> mapM f l = Ok (map g l).
Proof.
  induction l as [|x l IH]; intros H; [reflexivity|].
  cbn [mapM map]. rewrite (H x (or_introl eq_refl)), IH; [reflexivity|].
  intros y Hy. apply H. now right.
Qed.

Lemma mapM_ok {A B} (f : A -> result B) (l : list A) :
  (forall x, In x l -> exists y, f x = Ok y) -> exists ys, mapM f l = Ok ys.
Proof.
  induction l as [|x l IH]; intros H; [now exists []|].
  destruct (H x (or_introl eq_refl)) as [y Hy].
  destruct IH as [ys Hys]; [intros z Hz; apply H; now right|].
  exists (y :: ys). cbn [mapM]. now rewrite Hy, Hys.
Qed.

Lemma mapM_Forall2 {A B} (f : A -> result B) (l : list A) (ys : list B) :
  mapM f l = Ok ys -> Forall2 (fun x y => f x = Ok y) l ys.
Proof.
  revert ys; induction l as [|x l IH]; intros ys; cbn [mapM].
  - intros [= <-]. constructor.
  - destruct (f x) as [y|] eqn:Ey; [|discriminate]. cbn [bind].
    destruct (mapM f l) as [ys'|]; [|discriminate]. cbn [bind].
    intros [= <-]. constructor; [exact Ey|now apply IH].
Qed.

Lemma Forall2_in_l {A B} (R : A -> B -> Prop) (l : list A) (ys : list B) (x : A) :
  Forall2 R l ys -> In x l -> exists y, In y ys /\ R x y.
Proof.
  induction 1 as [|a b l ys Hab _ IH]; [easy|].
  intros [<- | Hx].
  - exists b. split; [now left|exact Hab].
  - destruct (IH Hx) as [y [Hy Hr]]. exists y. split; [now right|exact Hr].
Qed.


End MonadFacts.

Section SetFacts.
Import JS Generator Terms.

Lemma existsb_streq (x : str) (s : list str) :
  existsb (streq x) s = true <-> In x s.
Proof.
  rewrite existsb_exists. split.
  - intros [y [Hy E]]. apply streq_true_iff in E. now subst.
  - intros H. exists x. split; [exact H|apply streq_refl].
Qed.

Lemma Set_add_in (s : list str) (x y : str) :
  In y (Set_add s x) <-> In y s \/ y = x.
Proof.
  unfold Set_add. destruct (existsb (streq x) s) eqn:E.
  - apply existsb_streq in E. split; [now left|].
    intros [H | ->]; assumption.
  - rewrite in_app_iff. simpl. intuition congruence.
Qed.






End SetFacts.

Section Templates.
Import JS Generator Terms.

Lemma within_between3 (c1 c2 c3 x1 x3 m1 m2 rest : str) :
  endsWith c1 x1 = true -> startsWith c3 x3 = true ->
  Within (x1 ++ m1 ++ c2 ++ m2 ++ x3) (c1 ++ m1 ++ c2 ++ m2 ++ c3 ++ rest).
Proof.
  intros H1 H2.
  pose proof (within_between c1 c3 x1 x3 (m1 ++ c2 ++ m2) rest H1 H2) as H.
  now rewrite <- !app_assoc in H.
Qed.

Lemma within_between3_end (c1 c2 c3 x1 x3 m1 m2 : str) :
  endsWith c1 x1 = true -> startsWith c3 x3 = true ->
  Within (x1 ++ m1 ++ c2 ++ m2 ++ x3) (c1 ++ m1 ++ c2 ++ m2 ++ c3).
Proof.
  intros H1 H2. rewrite <- (app_nil_r c3). now apply within_between3.
Qed.

Lemma within_base_content (x content title : str) :
  Within x content -> Within x (getBaseTemplate content title).
Proof.
  intros H. unfold getBaseTemplate.
  do 3 apply within_app_r. now apply within_app_l.
Qed.

Lemma within_index_content (x content title : str) :
  Within x content -> Within x (getIndexTemplate content title).
Proof.
  intros H. unfold getIndexTemplate.
  do 3 apply within_app_r. now apply within_app_l.
Qed.

End Templates.

(** Search a right-nested concatenation for a piece that runs from the
    end of one literal to the start of a later one. *)
Ltac literal := vm_compute; reflexivity.

Ltac find_piece :=
  first [ apply within_between3; [literal|literal]
        | apply within_between3_end; [literal|literal]
        | apply within_between; [literal|literal]
        | apply within_between_end; [literal|literal]
        | apply within_app_r; find_piece ].

Section FilmPageFacts.
Import JS Generator Terms.

Lemma filmHeader_characters film banner fp fl fv u ch lh sh vh :
  Within (charactersSection (length fp) (orElse ch noCharacters))
         (filmHeader film banner fp fl fv u ch lh sh vh).
Proof. unfold filmHeader, charactersSection, noCharacters. find_piece. Qed.

Lemma filmHeader_locations film banner fp fl fv u ch lh sh vh :
  Within (locationsSection (length fl) lh)
         (filmHeader film banner fp fl fv u ch lh sh vh).
Proof. unfold filmHeader, locationsSection. find_piece. Qed.

Lemma filmHeader_species film banner fp fl fv u ch lh sh vh :
  Within (speciesSection (length u) sh)
         (filmHeader film banner fp fl fv u ch lh sh vh).
Proof. unfold filmHeader, speciesSection. find_piece. Qed.

Lemma filmHeader_vehicles film banner fp fl fv u ch lh sh vh :
  Within (vehiclesSection (length fv) vh)
         (filmHeader film banner fp fl fv u ch lh sh vh).
Proof. unfold filmHeader, vehiclesSection. find_piece. Qed.

Lemma getSpeciesById_some (ref : str) (ss : list Species.t) :
  getSpeciesById ref (Some ss) = Ok (resolveSpecies ss ref).
Proof. reflexivity. Qed.

Lemma characterSpecies_value data ss person :
  species data = Some ss ->
  characterSpecies data person = Ok (characterSpeciesOf ss person).
Proof.
  intros H. unfold characterSpecies, characterSpeciesOf, ifTruthy.
  destruct (Person.species person) as [[|c r]|]; try reflexivity.
  now rewrite H, getSpeciesById_some.
Qed.

Lemma filmCharacterCard_ok data ss person :
  species data = Some ss -> hasInitials (Person.name person) ->
  exists card, filmCharacterCard data person = Ok card.
Proof.
  intros H [i Hi]. unfold filmCharacterCard.
  rewrite (characterSpecies_value _ _ _ H), Hi. cbn [bind].
  eexists. reflexivity.
Qed.

Lemma filmCharacterCard_nonempty data person card :
  filmCharacterCard data person = Ok card -> isEmpty card = false.
Proof.
  unfold filmCharacterCard.
  destruct (characterSpecies data person) as [sp|]; [|discriminate].
  destruct (getInitials (Person.name person)) as [i|]; [|discriminate].
  cbn [bind]. intros [= <-]. reflexivity.
Qed.

Lemma speciesTag_nonempty s : isEmpty (speciesTag s) = false.
Proof. reflexivity. Qed.

Lemma speciesTags_filter (ss : list Species.t) (refs : list str) :
  filter (fun html => negb (isEmpty html))
    (map (fun r => match resolveSpecies ss r with
                   | Some s => speciesTag s
                   | None => []
                   end) refs)
  = speciesTagsOf ss refs.
Proof.
  unfold speciesTagsOf. induction refs as [|r refs IH]; [reflexivity|].
  cbn [map filter somes flat_map]. fold (somes (map (resolveSpecies ss) refs)).
  destruct (resolveSpecies ss r) as [s|]; cbn [isEmpty negb app map].
  - rewrite speciesTag_nonempty. cbn [negb]. now rewrite IH.
  - exact IH.
Qed.

Lemma filmSpeciesHTML_value data ss (u : list str) :
  species data = Some ss ->
  filmSpeciesHTML data u = Ok (tagsOrNone (speciesTagsOf ss u) (length u)).
Proof.
  intros H. unfold filmSpeciesHTML, tagsOrNone.
  destruct (0 <? length u)%nat; [|reflexivity].
  rewrite (mapM_total _ (fun r => match resolveSpecies ss r with
                                  | Some s => speciesTag s
                                  | None => []
                                  end)).
  - cbn [bind]. now rewrite speciesTags_filter.
  - intros r _. unfold speciesTagOrEmpty.
    now rewrite H, getSpeciesById_some.
Qed.

(** The film page is produced whenever the four collections it reads
    were fetched and every person of the film has initials; its
    sections hold what the resolver computed. *)
Lemma generateFilmPage_renders film filmId data ls ps vs ss :
  locations data = Some ls -> people data = Some ps ->
  vehicles data = Some vs -> species data = Some ss ->
  Forall (fun person => hasInitials (Person.name person)) (filmPeopleOf filmId ps) ->
  exists cards html,
    mapM (filmCharacterCard data) (filmPeopleOf filmId ps) = Ok cards /\
    generateFilmPage film filmId data = Ok html /\
    Within (charactersSection (length (filmPeopleOf filmId ps))
              (orElse (join [] cards) noCharacters)) html /\
    Within (locationsSection (length (filmLocationsOf filmId ls))
              (tagsOrNone (map locationTag (filmLocationsOf filmId ls))
                          (length (filmLocationsOf filmId ls)))) html /\
    Within (speciesSection (length (uniqueSpeciesOf filmId ps))
              (tagsOrNone (speciesTagsOf ss (uniqueSpeciesOf filmId ps))
                          (length (uniqueSpeciesOf filmId ps)))) html /\
    Within (vehiclesSection (length (filmVehiclesOf filmId vs))
              (tagsOrNone (map vehicleTag (filmVehiclesOf filmId vs))
                          (length (filmVehiclesOf filmId vs)))) html.
Proof.
  intros Hl Hp Hv Hs Hi.
  destruct (mapM_ok (filmCharacterCard data) (filmPeopleOf filmId ps)) as [cards Hc].
  { intros p Hin. rewrite Forall_forall in Hi.
    exact (filmCharacterCard_ok _ _ _ Hs (Hi p Hin)). }
  exists cards. unfold generateFilmPage.
  rewrite Hl, Hp, Hv. unfold getLocationsForFilm, getPeopleForFilm, getVehiclesForFilm.
  cbn [deref bind].
  fold (filmLocationsOf filmId ls) (filmPeopleOf filmId ps) (filmVehiclesOf filmId vs).
  rewrite Hc. cbn [bind].
  rewrite (filmSpeciesHTML_value _ _ _ Hs). cbn [bind].
  fold (uniqueSpeciesOf filmId ps).
  eexists. split; [reflexivity|]. split; [reflexivity|].
  repeat split; apply within_base_content.
  - apply filmHeader_characters.
  - apply filmHeader_locations.
  - apply filmHeader_species.
  - apply filmHeader_vehicles.
Qed.

Lemma generateFilmPage_null_locations film filmId data :
  locations data = None -> generateFilmPage film filmId data = TypeError.
Proof. intros H. unfold generateFilmPage. now rewrite H. Qed.

Lemma generateFilmPage_null_vehicles film filmId data :
  vehicles data = None -> generateFilmPage film filmId data = TypeError.
Proof.
  intros H. unfold generateFilmPage. rewrite H.
  destruct (getLocationsForFilm filmId (locations data)); [|reflexivity].
  cbn [bind].
  destruct (getPeopleForFilm filmId (people data)); reflexivity.
Qed.

End FilmPageFacts.

Section IndexPageFacts.
Import JS Generator Terms.

Lemma byReleaseYear_byKey : byReleaseYear = byKey releaseYear.
Proof. reflexivity. Qed.

Lemma generateIndexPage_value (fs : list Film.t) :
  generateIndexPage (Some fs) =
  Ok (sort byReleaseYear fs,
      getIndexTemplate
        (indexHeader (join [] (map indexFilmCard (sort byReleaseYear fs))))
        (q "Studio Ghibli Films")).
Proof. reflexivity. Qed.

Lemma indexHeader_grid (filmsHTML : str) :
  Within (filmsGrid filmsHTML) (indexHeader filmsHTML).
Proof. unfold indexHeader, filmsGrid. find_piece. Qed.

Lemma hrefTo_film (filmId : str) :
  hrefTo (filmFile filmId) = q "href=`film_" ++ filmId ++ q ".html`".
Proof. unfold hrefTo, filmFile. rewrite <- !app_assoc. reflexivity. Qed.


Lemma indexFilmCard_link (film : Film.t) :
  Within (hrefTo (filmFile (Film.id film))) (indexFilmCard film).
Proof.
  rewrite hrefTo_film. unfold indexFilmCard. cbv zeta. find_piece.
Qed.




End IndexPageFacts.

(* ================================================================= *)
(** * Properties of the specification *)

Import JS Generator Terms.

(** ** Avatar class *)

Lemma avatar_classes_differ :
  q "avatar-female" <> q "avatar-male" /\
  q "avatar-female" <> q "avatar-neutral" /\
  q "avatar-male" <> q "avatar-neutral".
Proof. repeat split; vm_compute; discriminate. Qed.

Lemma getAvatarColor_cases (g : str) :
  (toLowerCase g = q "female" /\ getAvatarColor (Some g) = q "avatar-female") \/
  (toLowerCase g <> q "female" /\ toLowerCase g = q "male" /\
   getAvatarColor (Some g) = q "avatar-male") \/
  (toLowerCase g <> q "female" /\ toLowerCase g <> q "male" /\
   getAvatarColor (Some g) = q "avatar-neutral").
Proof.
  rewrite getAvatarColor_some.
  destruct (streq (toLowerCase g) (q "female")) eqn:EF.
  - left. now apply streq_true_iff in EF.
  - right. apply streq_false_iff in EF.
    destruct (streq (toLowerCase g) (q "male")) eqn:EM.
    + left. now apply streq_true_iff in EM.
    + right. now apply streq_false_iff in EM.
Qed.

Lemma female_is_not_male : q "female" <> q "male".
Proof. vm_compute. discriminate. Qed.

(** C7. The avatar class depends on the gender only through a
    case-insensitive comparison: any spelling of "female" (so "Female"
    and "female") gives [avatar-female], any spelling of "male" gives
    [avatar-male], and an absent, empty or other gender gives
    [avatar-neutral]. *)
Theorem getAvatarColor_case_insensitive :
  getAvatarColor None = q "avatar-neutral" /\
  getAvatarColor (Some []) = q "avatar-neutral" /\
  getAvatarColor (Some (q "Female")) = q "avatar-female" /\
  getAvatarColor (Some (q "female")) = q "avatar-female" /\
  (forall g, getAvatarColor (Some g) = q "avatar-female" <-> AnyCase g (q "female")) /\
  (forall g, getAvatarColor (Some g) = q "avatar-male" <-> AnyCase g (q "male")) /\
  (forall g, getAvatarColor (Some g) = q "avatar-neutral" <->
             ~ AnyCase g (q "female") /\ ~ AnyCase g (q "male")).
Proof.
  destruct avatar_classes_differ as [FM [FN MN]].
  pose proof female_is_not_male as D.
  do 4 (split; [reflexivity|]).
  repeat split; intros;
    rewrite <- ?(toLowerCase_anycase _ female_lower),
            <- ?(toLowerCase_anycase _ male_lower) in *;
    destruct (getAvatarColor_cases g) as [[L R] | [[L1 [L2 R]] | [L1 [L2 R]]]];
    intuition congruence.
Qed.

(** ** Species page: references that name a collection *)

Lemma getSpeciesPeople_skips species data before after url :
  isEntityUrl url = false ->
  getSpeciesPeople (withPeople species (before ++ url :: after)) data =
  getSpeciesPeople (withPeople species (before ++ after)) data.
Proof.
  intros H. unfold getSpeciesPeople, withPeople. cbn [Species.people].
  now rewrite (filter_drop isEntityUrl before after url H).
Qed.

Lemma getSpeciesFilms_skips species data before after url :
  isEntityUrl url = false ->
  getSpeciesFilms (withFilms species (before ++ url :: after)) data =
  getSpeciesFilms (withFilms species (before ++ after)) data.
Proof.
  intros H. unfold getSpeciesFilms, withFilms. cbn [Species.films].
  now rewrite (filter_drop isEntityUrl before after url H).
Qed.

(** C6. A reference URL of a species whose trailing segment is the name
    of one of the five collections does not pass the filter of the
    species page: the page is the one generated without that reference,
    so the reference yields no character card and no film tag. *)
Theorem species_page_drops_collection_urls
    species speciesId data before after url name :
  getIdFromUrl url = Some name -> In name collectionNames ->
  isEntityUrl url = false /\
  getSpeciesPeople (withPeople species (before ++ url :: after)) data =
    getSpeciesPeople (withPeople species (before ++ after)) data /\
  getSpeciesFilms (withFilms species (before ++ url :: after)) data =
    getSpeciesFilms (withFilms species (before ++ after)) data /\
  generateSpeciesPage (withPeople species (before ++ url :: after)) speciesId data =
    generateSpeciesPage (withPeople species (before ++ after)) speciesId data /\
  generateSpeciesPage (withFilms species (before ++ url :: after)) speciesId data =
    generateSpeciesPage (withFilms species (before ++ after)) speciesId data.
Proof.
  intros Hid Hname.
  pose proof (isEntityUrl_collection_name url name Hid Hname) as H.
  split; [exact H|].
  split; [now apply getSpeciesPeople_skips|].
  split; [now apply getSpeciesFilms_skips|].
  split.
  - unfold generateSpeciesPage.
    now rewrite (getSpeciesPeople_skips species data before after url H).
  - unfold generateSpeciesPage.
    now rewrite (getSpeciesFilms_skips species data before after url H).
Qed.

Lemma species_page_drops_collection_urls_witness :
  isEntityUrl (q "https://api/people") = false /\
  getSpeciesPeople
    (withPeople Samples.human
       ([q "https://api/people/p1"] ++ q "https://api/people" :: []))
    Samples.catalog =
    getSpeciesPeople
      (withPeople Samples.human ([q "https://api/people/p1"] ++ []))
      Samples.catalog /\
  getSpeciesFilms
    (withFilms Samples.human
       ([q "https://api/people/p1"] ++ q "https://api/people" :: []))
    Samples.catalog =
    getSpeciesFilms
      (withFilms Samples.human ([q "https://api/people/p1"] ++ []))
      Samples.catalog /\
  generateSpeciesPage
    (withPeople Samples.human
       ([q "https://api/people/p1"] ++ q "https://api/people" :: []))
    (q "s1") Samples.catalog =
    generateSpeciesPage
      (withPeople Samples.human ([q "https://api/people/p1"] ++ []))
      (q "s1") Samples.catalog /\
  generateSpeciesPage
    (withFilms Samples.human
       ([q "https://api/people/p1"] ++ q "https://api/people" :: []))
    (q "s1") Samples.catalog =
    generateSpeciesPage
      (withFilms Samples.human ([q "https://api/people/p1"] ++ []))
      (q "s1") Samples.catalog.
Proof.
  apply (species_page_drops_collection_urls Samples.human (q "s1")
           Samples.catalog [q "https://api/people/p1"] []
           (q "https://api/people") (q "people")).
  - reflexivity.
  - left. reflexivity.
Defined.

(** ** Film page: character cards *)

Section SplitFacts.

Lemma split_nonempty (sep : ascii) (s : str) : split sep s <> [].
Proof.
  destruct s as [|c s]; simpl; [discriminate|].
  destruct (Ascii.eqb c sep); [discriminate|].
  destruct (split sep s); discriminate.
Qed.

Lemma split_head_prefix (sep : ascii) (s : str) :
  exists r, s = hd [] (split sep s) ++ r.
Proof.
  induction s as [|c s [r IH]]; simpl.
  - now exists [].
  - destruct (Ascii.eqb c sep).
    + now exists (c :: s).
    + destruct (split sep s) as [|p ps] eqn:E.
      * now exists s.
      * exists r. simpl in *. now rewrite <- IH.
Qed.

Lemma split_parts_within (sep : ascii) (s p : str) :
  In p (split sep s) -> Within p s.
Proof.
  revert p; induction s as [|c s IH]; intros p; simpl.
  - intros [<- | []]. apply within_refl.
  - destruct (Ascii.eqb c sep).
    + intros [<- | H].
      * exists [], (c :: s). reflexivity.
      * apply (within_app_r p [c] s). now apply IH.
    + destruct (split_head_prefix sep s) as [r Hr].
      destruct (split sep s) as [|p0 ps] eqn:E.
      * intros [<- | []]. exists [], s. reflexivity.
      * intros [<- | H].
        -- exists [], r. simpl in *. now rewrite <- Hr.
        -- apply (within_app_r p [c] s). apply IH. now right.
Qed.

Lemma lastOf_in {A} (l : list A) (x : A) : lastOf l = Some x -> In x l.
Proof.
  intros H. apply lastOf_some in H as [l' ->].
  apply in_or_app. right. now left.
Qed.

Lemma getIdFromUrl_within (url i : str) :
  getIdFromUrl url = Some i -> Within i url.
Proof.
  intros H. apply getIdFromUrl_lastOf, lastOf_in in H.
  now apply split_parts_within in H.
Qed.

Lemma matchesFilm_iff (filmId : str) (films : option (list str)) :
  matchesFilm filmId films = true <->
  exists urls url, films = Some urls /\ In url urls /\ Within filmId url.
Proof.
  unfold matchesFilm. destruct films as [urls|].
  - rewrite existsb_exists. split.
    + intros [url [Hin H]]. exists urls, url.
      repeat split; [exact Hin|now apply includes_within].
    + intros [urls' [url [[= <-] [Hin H]]]]. exists url.
      split; [exact Hin|now apply includes_within].
  - split; [discriminate|]. now intros [urls [url [[=] _]]].
Qed.

Lemma filmPeopleOf_iff (filmId : str) (ps : list Person.t) (person : Person.t) :
  In person (filmPeopleOf filmId ps) <->
  In person ps /\
  exists urls url,
    Person.films person = Some urls /\ In url urls /\ Within filmId url.
Proof.
  unfold filmPeopleOf. now rewrite filter_In, matchesFilm_iff.
Qed.

Lemma concat_nonempty (parts : list str) (x : str) :
  In x parts -> isEmpty x = false -> isEmpty (concat parts) = false.
Proof.
  induction parts as [|p parts IH]; [easy|].
  intros [-> | H] E; simpl.
  - now destruct x.
  - destruct p; [now apply IH|reflexivity].
Qed.

Lemma within_charactersSection (n : nat) (html : str) :
  Within html (charactersSection n html).
Proof.
  unfold charactersSection. do 3 apply within_app_r.
  apply within_app_l, within_refl.
Qed.

End SplitFacts.

(** The only film reference of the stranger ends in [f12], and the
    page of film [f1] shows the stranger's card. *)
Lemma stranger_on_f1_page :
  exists html card,
    generateFilmPage Samples.f1 (q "f1")
      (Samples.dataset [Samples.f1] [Samples.stranger] []) = Ok html /\
    filmCharacterCard
      (Samples.dataset [Samples.f1] [Samples.stranger] []) Samples.stranger
      = Ok card /\
    Person.films Samples.stranger = Some [q "https://api/films/f12"] /\
    getIdFromUrl (q "https://api/films/f12") = Some (q "f12") /\
    streq (q "f12") (q "f1") = false /\
    includes html card = true.
Proof.
  eexists. eexists.
  split; [vm_compute; reflexivity|].
  split; [vm_compute; reflexivity|].
  repeat split; vm_compute; reflexivity.
Qed.

(** C3 (amended). When the film page is generated, it shows one card
    per person of the people collection that has a film reference
    containing the film's id as a substring, and no other card; a
    reference whose trailing segment equals the id is such a reference,
    so that person's card is on the page. *)
Theorem film_page_cards_by_substring film filmId data ls ps vs ss :
  locations data = Some ls -> people data = Some ps ->
  vehicles data = Some vs -> species data = Some ss ->
  Forall (fun person => hasInitials (Person.name person))
         (filmPeopleOf filmId ps) ->
  exists cards html,
    generateFilmPage film filmId data = Ok html /\
    Forall2 (fun person card => filmCharacterCard data person = Ok card)
            (filmPeopleOf filmId ps) cards /\
    Within (charactersSection (length (filmPeopleOf filmId ps))
              (orElse (join [] cards) noCharacters)) html /\
    (forall person,
        In person (filmPeopleOf filmId ps) <->
        In person ps /\
        exists urls url,
          Person.films person = Some urls /\ In url urls /\
          Within filmId url) /\
    (forall person urls url,
        In person ps -> Person.films person = Some urls -> In url urls ->
        getIdFromUrl url = Some filmId ->
        exists card,
          filmCharacterCard data person = Ok card /\ In card cards /\
          Within card html).
Proof.
  intros Hl Hp Hv Hs Hi.
  destruct (generateFilmPage_renders film filmId data ls ps vs ss Hl Hp Hv Hs Hi)
    as [cards [html [Hc [Hg [Hch _]]]]].
  exists cards, html.
  pose proof (mapM_Forall2 _ _ _ Hc) as F.
  split; [exact Hg|]. split; [exact F|]. split; [exact Hch|].
  split; [intros person; apply filmPeopleOf_iff|].
  intros person urls url Hin Hf Hu Hid.
  assert (Hfp : In person (filmPeopleOf filmId ps)).
  { apply filmPeopleOf_iff. split; [exact Hin|].
    exists urls, url. repeat split; try assumption.
    now apply getIdFromUrl_within. }
  destruct (Forall2_in_l _ _ _ _ F Hfp) as [card [Hcard Hok]].
  exists card. repeat split; try assumption.
  apply (within_trans _ _ _ (within_concat card cards Hcard)).
  rewrite <- join_nil_concat.
  assert (E : orElse (join [] cards) noCharacters = join [] cards).
  { unfold orElse. rewrite join_nil_concat.
    now rewrite (concat_nonempty cards card Hcard
                   (filmCharacterCard_nonempty _ _ _ Hok)). }
  rewrite E in Hch.
  exact (within_trans _ _ _ (within_charactersSection _ _) Hch).
Qed.

Lemma film_page_cards_by_substring_witness :
  exists cards html,
    generateFilmPage Samples.f1 (q "f1") Samples.catalog = Ok html /\
    Forall2 (fun person card => filmCharacterCard Samples.catalog person = Ok card)
            (filmPeopleOf (q "f1") [Samples.satsuki; Samples.stranger]) cards /\
    Within (charactersSection
              (length (filmPeopleOf (q "f1") [Samples.satsuki; Samples.stranger]))
              (orElse (join [] cards) noCharacters)) html /\
    (forall person,
        In person (filmPeopleOf (q "f1") [Samples.satsuki; Samples.stranger]) <->
        In person [Samples.satsuki; Samples.stranger] /\
        exists urls url,
          Person.films person = Some urls /\ In url urls /\
          Within (q "f1") url) /\
    (forall person urls url,
        In person [Samples.satsuki; Samples.stranger] ->
        Person.films person = Some urls -> In url urls ->
        getIdFromUrl url = Some (q "f1") ->
        exists card,
          filmCharacterCard Samples.catalog person = Ok card /\ In card cards /\
          Within card html).
Proof.
  apply (film_page_cards_by_substring Samples.f1 (q "f1") Samples.catalog
           [Samples.castle] [Samples.satsuki; Samples.stranger] []
           [Samples.human]); try reflexivity.
  vm_compute. repeat constructor; eexists; reflexivity.
Defined.

(** ** Index page: order of the film cards *)

(** The films [a] (2000), [b] (no year) and [c] (1990) stay in their
    fetch order: the card of 2000 comes before the card of 1990. *)
Lemma undated_films_stay_unsorted :
  exists html,
    generateIndexPage (Some Samples.undated) = Ok (Samples.undated, html) /\
    map releaseYear Samples.undated = [Fin 2000; NaN; Fin 1990] /\
    lt (Fin 1990) (Fin 2000) = true /\
    includes html
      (indexFilmCard (Samples.film "a" "2000")
       ++ indexFilmCard (Samples.film "b" "to be announced")
       ++ indexFilmCard (Samples.film "c" "1990")) = true.
Proof.
  eexists. split; [vm_compute; reflexivity|].
  repeat split; vm_compute; reflexivity.
Qed.

(** C4 (amended). When every release date parses to a number, the
    index page holds exactly one card per film of the collection, each
    linking to [film_<id>.html]; the cards are in ascending order of the
    parsed release year, and films with the same parsed year keep their
    fetch order. *)
Theorem index_page_cards_sorted_by_year (fs : list Film.t) :
  Forall (fun film => releaseYear film <> NaN) fs ->
  exists sorted html,
    generateIndexPage (Some fs) = Ok (sorted, html) /\
    Within (filmsGrid (join [] (map indexFilmCard sorted))) html /\
    Permutation fs sorted /\
    (forall film, Within (hrefTo (filmFile (Film.id film))) (indexFilmCard film)) /\
    StronglySorted (inOrder releaseYear) sorted /\
    (forall year,
        filter (fun film => sameNumber (releaseYear film) year) sorted =
        filter (fun film => sameNumber (releaseYear film) year) fs).
Proof.
  intros H. eexists. eexists.
  split; [apply generateIndexPage_value|].
  rewrite byReleaseYear_byKey.
  split; [apply within_index_content, indexHeader_grid|].
  split; [apply sort_perm|].
  split; [apply indexFilmCard_link|].
  split; [now apply sort_sorted|].
  intros year. apply sort_stable.
Qed.

Lemma index_page_cards_sorted_by_year_witness :
  exists sorted html,
    generateIndexPage (Some [Samples.f3; Samples.f2; Samples.f1])
      = Ok (sorted, html) /\
    Within (filmsGrid (join [] (map indexFilmCard sorted))) html /\
    Permutation [Samples.f3; Samples.f2; Samples.f1] sorted /\
    (forall film, Within (hrefTo (filmFile (Film.id film))) (indexFilmCard film)) /\
    StronglySorted (inOrder releaseYear) sorted /\
    (forall year,
        filter (fun film => sameNumber (releaseYear film) year) sorted =
        filter (fun film => sameNumber (releaseYear film) year)
               [Samples.f3; Samples.f2; Samples.f1]).
Proof.
  apply (index_page_cards_sorted_by_year [Samples.f3; Samples.f2; Samples.f1]).
  repeat constructor; vm_compute; discriminate.
Defined.

(** ** Film page: the species count and the species tags *)

Section SpeciesCountFacts.

Lemma somes_length {A} (l : list (option A)) : (length (somes l) <= length l)%nat.
Proof.
  induction l as [|[a|] l IH]; simpl; [lia| |]; unfold somes in *; simpl; lia.
Qed.

Lemma somes_in {A} (l : list (option A)) (a : A) :
  In a (somes l) <-> In (Some a) l.
Proof.
  unfold somes. rewrite in_flat_map. split.
  - intros [[b|] [H1 H2]]; simpl in H2; [|easy].
    destruct H2 as [-> | []]. exact H1.
  - intros H. exists (Some a). split; [exact H|now left].
Qed.




End SpeciesCountFacts.



(** ** Running the generator *)

Section RunFacts.

Lemma forEach_films_run minify data (fs : list Film.t) (w : World) :
  match forEach (writeFilmPage minify data) fs w with
  | (w', Return _) =>
      console w' = console w /\
      map fst (files w') =
        map fst (files w) ++ map (fun film => filmFile (Film.id film)) fs /\
      Forall (fun film =>
                exists page, generateFilmPage film (Film.id film) data = Ok page) fs
  | (w', Raise) =>
      console w' = console w /\
      exists film,
        In film fs /\ generateFilmPage film (Film.id film) data = TypeError
  | (_, Exited _) => False
  end.
Proof.
  revert w; induction fs as [|film fs IH]; intros w.
  - cbn. rewrite app_nil_r. repeat split. constructor.
  - cbn [forEach]. unfold andThen at 1. unfold writeFilmPage at 1.
    unfold andThen at 1, eval, writeFileSync.
    destruct (generateFilmPage film (Film.id film) data) as [page|] eqn:E.
    + specialize (IH {| console := console w;
                        files := files w ++ [(q "film_" ++ Film.id film ++ q ".html",
                                             minifyHTML minify page)] |}).
      destruct (forEach (writeFilmPage minify data) fs _) as [w' [u| |c]];
        cbn [console files] in IH.
      * destruct IH as [Hc [Hf Hp]]. split; [exact Hc|]. split.
        -- rewrite Hf, map_app, <- app_assoc. reflexivity.
        -- constructor; [now exists page|exact Hp].
      * destruct IH as [Hc [f [Hin Hf]]]. split; [exact Hc|].
        exists f. split; [now right|exact Hf].
      * exact IH.
    + split; [reflexivity|]. exists film. split; [now left|exact E].
Qed.

Lemma forEach_species_run minify data (ss : list Species.t) (w : World) :
  match forEach (writeSpeciesPage minify data) ss w with
  | (w', Return _) =>
      console w' = console w /\
      map fst (files w') =
        map fst (files w) ++ map (fun s => speciesFile (Species.id s)) ss /\
      Forall (fun s =>
                exists page, generateSpeciesPage s (Species.id s) data = Ok page) ss
  | (w', Raise) =>
      console w' = console w /\
      exists s,
        In s ss /\ generateSpeciesPage s (Species.id s) data = TypeError
  | (_, Exited _) => False
  end.
Proof.
  revert w; induction ss as [|s ss IH]; intros w.
  - cbn. rewrite app_nil_r. repeat split. constructor.
  - cbn [forEach]. unfold andThen at 1. unfold writeSpeciesPage at 1.
    unfold andThen at 1, eval, writeFileSync.
    destruct (generateSpeciesPage s (Species.id s) data) as [page|] eqn:E.
    + specialize (IH {| console := console w;
                        files := files w ++ [(q "species_" ++ Species.id s ++ q ".html",
                                             minifyHTML minify page)] |}).
      destruct (forEach (writeSpeciesPage minify data) ss _) as [w' [u| |c]];
        cbn [console files] in IH.
      * destruct IH as [Hc [Hf Hp]]. split; [exact Hc|]. split.
        -- rewrite Hf, map_app, <- app_assoc. reflexivity.
        -- constructor; [now exists page|exact Hp].
      * destruct IH as [Hc [f [Hin Hf]]]. split; [exact Hc|].
        exists f. split; [now right|exact Hf].
      * exact IH.
    + split; [reflexivity|]. exists s. split; [now left|exact E].
Qed.

(** What a call of [generateStaticFiles] that returns has done. *)
Lemma generateStaticFiles_run minify data w :
  match generateStaticFiles minify data w with
  | (w', Return data') =>
      exists fs,
        films data = Some fs /\
        data' = withSortedFilms data /\
        map fst (files w') =
          map fst (files w)
          ++ q "index.html"
          :: map (fun film => filmFile (Film.id film)) (sort byReleaseYear fs)
          ++ match species data with
             | Some ss => map (fun s => speciesFile (Species.id s)) ss
             | None => []
             end
  | (_, Raise) =>
      films data = None \/
      (exists fs film,
          films data = Some fs /\ In film (sort byReleaseYear fs) /\
          generateFilmPage film (Film.id film) (withSortedFilms data) = TypeError) \/
      (exists ss s,
          species data = Some ss /\ In s ss /\
          generateSpeciesPage s (Species.id s) (withSortedFilms data) = TypeError)
  | (_, Exited _) => False
  end.
Proof.
  unfold generateStaticFiles.
  unfold andThen at 1. unfold console_log at 1.
  unfold andThen at 1. unfold eval at 1.
  destruct (films data) as [fs|] eqn:Ef; [|now left].
  assert (ED : withSortedFilms data =
               {| films := Some (sort byReleaseYear fs);
                  locations := locations data; vehicles := vehicles data;
                  people := people data; species := species data |}).
  { unfold withSortedFilms. now rewrite Ef. }
  rewrite generateIndexPage_value. cbn [fst snd].
  unfold andThen at 1. unfold writeFileSync at 1.
  unfold andThen at 1. unfold console_log at 1.
  unfold andThen at 1. unfold console_log at 1.
  unfold andThen at 1. cbn [films].
  unfold andThen at 1.
  match goal with |- context [forEach ?b ?l ?w0] =>
    pose proof (forEach_films_run minify
      {| films := Some (sort byReleaseYear fs); locations := locations data;
         vehicles := vehicles data; people := people data;
         species := species data |} l w0) as HF;
    destruct (forEach b l w0) as [w1 [u| |c]] end;
    [| |exact HF].
  2:{ destruct HF as [_ [film [Hin Hf]]]. right. left. exists fs, film.
      rewrite ED. now repeat split. }
  destruct HF as [_ [HF _]]. cbn [files console] in HF.
  unfold console_log at 1.
  unfold andThen at 1. unfold console_log at 1.
  unfold andThen at 1. cbn [species].
  destruct (species data) as [ss|] eqn:Es.
  - unfold andThen at 1.
    match goal with |- context [forEach ?b ?l ?w0] =>
      pose proof (forEach_species_run minify
        {| films := Some (sort byReleaseYear fs); locations := locations data;
           vehicles := vehicles data; people := people data;
           species := Some ss |} l w0) as HS;
      destruct (forEach b l w0) as [w2 [u2| |c2]] end;
      [| |exact HS].
    2:{ destruct HS as [_ [s [Hin Hs]]]. right. right. exists ss, s.
        rewrite ED, ?Es. now repeat split. }
    destruct HS as [_ [HS _]]. cbn [files console] in HS.
    unfold console_log at 1. unfold andThen at 1. unfold console_log at 1.
    unfold ret. exists fs. split; [reflexivity|]. split.
    + now rewrite ED, ?Es.
    + cbn [files]. rewrite HS, HF, map_app, <- !app_assoc. reflexivity.
  - unfold ret at 1. unfold andThen at 1. unfold console_log at 1.
    unfold ret. exists fs. split; [reflexivity|]. split.
    + now rewrite ED, ?Es.
    + cbn [files]. rewrite HF, map_app, <- !app_assoc, app_nil_r. reflexivity.
Qed.

Lemma speciesCharacterCard_ok (person : Person.t) :
  hasInitials (Person.name person) ->
  exists card, speciesCharacterCard person = Ok card.
Proof.
  intros [i Hi]. unfold speciesCharacterCard. rewrite Hi. cbn [bind].
  eexists. reflexivity.
Qed.

Lemma find_somes_in {A B} (pick : B -> A -> bool) (l : list A) (keys : list B)
    (x : A) :
  In x (somes (map (fun k => find (pick k) l) keys)) -> In x l.
Proof.
  intros H. apply somes_in, in_map_iff in H as [k [E _]].
  now apply find_some in E.
Qed.


End RunFacts.

Section MainFacts.

Lemma andThen_log {B} (line : str) (k : unit -> Proc B) (w : World) :
  andThen (console_log line) k w =
  k tt {| console := console w ++ [line]; files := files w |}.
Proof. reflexivity. Qed.

Lemma andThen_ret {A B} (a : A) (k : A -> Proc B) (w : World) :
  andThen (ret a) k w = k a w.
Proof. reflexivity. Qed.

Lemma andThen_exit {B} (code : Z) (k : unit -> Proc B) (w : World) :
  andThen (process_exit code) k w = (w, Exited code).
Proof. reflexivity. Qed.

Lemma andThen_eval_ok {A B} (a : A) (k : A -> Proc B) (w : World) :
  andThen (eval (Ok a)) k w = k a w.
Proof. reflexivity. Qed.

Lemma andThen_eval_error {A B} (k : A -> Proc B) (w : World) :
  andThen (eval (@TypeError A)) k w = (w, Raise).
Proof. reflexivity. Qed.

Lemma andThen_assoc {A B C} (m : Proc A) (f : A -> Proc B) (k : B -> Proc C)
    (w : World) :
  andThen (andThen m f) k w = andThen m (fun a => andThen (f a) k) w.
Proof.
  unfold andThen. destruct (m w) as [w1 [a| |c]]; reflexivity.
Qed.

End MainFacts.

Ltac run :=
  repeat (first
            [ rewrite andThen_assoc | rewrite andThen_log | rewrite andThen_ret
            | rewrite andThen_exit | rewrite andThen_eval_ok
            | rewrite andThen_eval_error ];
          cbv beta).

Section MainRuns.

Opaque generateStaticFiles.

(** A run of [main] that ends with status 0 had all five collections
    and wrote the index page, one page per film and one per species. *)
Lemma main_exit_0 minify data w :
  main minify data = (w, 0%Z) ->
  exists fs ls vs ps ss,
    films data = Some fs /\ locations data = Some ls /\
    vehicles data = Some vs /\ people data = Some ps /\
    species data = Some ss /\
    map fst (files w) = expectedFiles fs ss.
Proof.
  unfold main, mainBody, fetchAllData, lengthOf. run.
  destruct (films data) as [fs|] eqn:Ef;
    [|cbn [isNull orb deref bind]; run; discriminate].
  destruct (people data) as [ps|] eqn:Ep;
    [|cbn [isNull orb deref bind]; run; discriminate].
  destruct (species data) as [ss|] eqn:Es;
    [|cbn [isNull orb deref bind]; run; discriminate].
  destruct (locations data) as [ls|] eqn:El;
    [|cbn [isNull orb deref bind]; run; discriminate].
  destruct (vehicles data) as [vs|] eqn:Ev;
    [|cbn [isNull orb deref bind]; run; discriminate].
  cbn [isNull orb deref bind]. run. cbn [console files startup].
  unfold andThen at 1.
  match goal with |- context [generateStaticFiles minify data ?w0] =>
    pose proof (generateStaticFiles_run minify data w0) as G;
    destruct (generateStaticFiles minify data w0) as [w1 [d1| |c]] end;
    [|discriminate|destruct G].
  destruct G as [fs' [Hfs [-> G]]].
  rewrite Ef in Hfs. injection Hfs as <-.
  unfold withSortedFilms. rewrite Ef, Es.
  cbn [films species option_map deref bind]. run.
  intros [= <-]. exists fs, ls, vs, ps, ss.
  repeat split. cbn [files]. rewrite G, Es. reflexivity.
Qed.


Lemma main_null_locations minify data fs ps ss :
  films data = Some fs -> people data = Some ps -> species data = Some ss ->
  locations data = None ->
  snd (main minify data) = 1%Z /\ files (fst (main minify data)) = [].
Proof.
  intros Ef Ep Es El. unfold main, mainBody, fetchAllData, lengthOf. run.
  rewrite Ef, Ep, Es, El. cbn [isNull orb deref bind]. run. now split.
Qed.

Lemma main_null_vehicles minify data fs ps ss :
  films data = Some fs -> people data = Some ps -> species data = Some ss ->
  vehicles data = None ->
  snd (main minify data) = 1%Z /\ files (fst (main minify data)) = [].
Proof.
  intros Ef Ep Es Ev. unfold main, mainBody, fetchAllData, lengthOf. run.
  rewrite Ef, Ep, Es, Ev.
  destruct (locations data); cbn [isNull orb deref bind]; run; now split.
Qed.

Transparent generateStaticFiles.

End MainRuns.

(** ** Missing optional collections *)

(** C1. A run in which films, people and species were fetched but
    locations (or vehicles) came back null does not complete: [main]
    raises when it reads the length of the missing collection, before
    any file is written, and the process ends with status 1; every
    film page would raise as well. *)
Theorem missing_optional_collection_aborts minify data fs ps ss :
  films data = Some fs -> people data = Some ps -> species data = Some ss ->
  locations data = None \/ vehicles data = None ->
  snd (main minify data) = 1%Z /\
  files (fst (main minify data)) = [] /\
  (forall film filmId, generateFilmPage film filmId data = TypeError).
Proof.
  intros Ef Ep Es [H | H].
  - destruct (main_null_locations minify data fs ps ss Ef Ep Es H) as [A B].
    repeat split; try assumption.
    intros. now apply generateFilmPage_null_locations.
  - destruct (main_null_vehicles minify data fs ps ss Ef Ep Es H) as [A B].
    repeat split; try assumption.
    intros. now apply generateFilmPage_null_vehicles.
Qed.

Lemma missing_optional_collection_aborts_witness :
  snd (main None Samples.catalogWithoutLocations) = 1%Z /\
  files (fst (main None Samples.catalogWithoutLocations)) = [] /\
  (forall film filmId,
      generateFilmPage film filmId Samples.catalogWithoutLocations = TypeError).
Proof.
  apply (missing_optional_collection_aborts None Samples.catalogWithoutLocations
           [Samples.f3; Samples.f2; Samples.f1]
           [Samples.satsuki; Samples.stranger] [Samples.human]);
    try reflexivity.
  left. reflexivity.
Defined.

(** ** Mutation of the fetched dataset *)




(** ** Internal links *)

Section LinkFacts.

Lemma Ok_inj {A} (a b : A) : Ok a = Ok b -> a = b.
Proof. now intros [= ->]. Qed.












End LinkFacts.



(** ** Determinism *)

Section DeterminismFacts.


End DeterminismFacts.



(** ** The soot explosion *)

Section SootFacts.

Variable random : nat -> Q.
Variables cos sin : Q -> Q.
Variable PI : Q.
Hypothesis random_range : forall n, 0 <= random n /\ random n < 1.

Lemma Qfloor_between (x : Q) (lo hi : Z) :
  inject_Z lo <= x -> x < inject_Z hi + 1 -> (lo <= Qfloor x <= hi)%Z.
Proof.
  intros L H. split.
  - apply Qfloor_resp_le in L. now rewrite Qfloor_Z in L.
  - assert (F : inject_Z (Qfloor x) < inject_Z (hi + 1)).
    { rewrite inject_Z_plus. apply Qle_lt_trans with x; [apply Qfloor_le|exact H]. }
    rewrite <- Zlt_Qlt in F. lia.
Qed.





End SootFacts.




(* ================================================================= *)
(** * Further properties of the helper functions *)

Import Notions.

Section SplitJoinFacts.

Lemma split_cons (sep c : ascii) (s : str) :
  split sep (c :: s) =
  if Ascii.eqb c sep then [] :: split sep s
  else (c :: hd [] (split sep s)) :: tl (split sep s).
Proof.
  simpl. destruct (Ascii.eqb c sep); [reflexivity|].
  pose proof (split_nonempty sep s) as Hn.
  destruct (split sep s); [congruence | reflexivity].
Qed.

Lemma join_cons (sep p : str) (rest : list str) :
  rest <> [] -> join sep (p :: rest) = p ++ sep ++ join sep rest.
Proof. destruct rest; [congruence | reflexivity]. Qed.

(** [s.split(c).join(c)] is [s]. *)
Lemma join_split (sep : ascii) (s : str) : join [sep] (split sep s) = s.
Proof.
  induction s as [|c s IH]; [reflexivity|].
  rewrite split_cons. pose proof (split_nonempty sep s) as Hn.
  destruct (Ascii.eqb c sep) eqn:E.
  - apply Ascii.eqb_eq in E. subst c.
    rewrite join_cons by assumption. simpl. now rewrite IH.
  - destruct (split sep s) as [|p ps]; [congruence|].
    simpl hd. simpl tl. destruct ps as [|p' ps].
    + simpl in *. now rewrite IH.
    + rewrite join_cons by discriminate. rewrite join_cons in IH by discriminate.
      rewrite <- IH. reflexivity.
Qed.

Lemma split_parts_nosep (sep : ascii) (s : str) :
  Forall (fun p => ~ In sep p) (split sep s).
Proof.
  induction s as [|c s IH]; [repeat constructor; intros []|].
  rewrite split_cons. pose proof (split_nonempty sep s) as Hn.
  destruct (Ascii.eqb c sep) eqn:E.
  - constructor; [intros []| assumption].
  - apply Ascii.eqb_neq in E.
    destruct (split sep s) as [|p ps]; [congruence|].
    inversion IH; subst. constructor; [|assumption].
    simpl. intros [H | H]; [congruence | auto].
Qed.

Lemma split_nosep (sep : ascii) (s : str) :
  ~ In sep s -> split sep s = [s].
Proof.
  induction s as [|c s IH]; intros H; [reflexivity|].
  rewrite split_cons. destruct (Ascii.eqb c sep) eqn:E.
  - apply Ascii.eqb_eq in E. subst. exfalso. apply H. now left.
  - rewrite IH; [reflexivity|]. intros Hin. apply H. now right.
Qed.

Lemma split_length (sep : ascii) (s : str) :
  (2 <= length (split sep s))%nat <-> In sep s.
Proof.
  induction s as [|c s IH]; [simpl; split; [lia | intros []]|].
  rewrite split_cons. pose proof (split_nonempty sep s) as Hn.
  destruct (Ascii.eqb c sep) eqn:E.
  - apply Ascii.eqb_eq in E. subst.
    split; [intros _; now left|intros _].
    destruct (split sep s); [congruence | simpl; lia].
  - apply Ascii.eqb_neq in E.
    destruct (split sep s) as [|p ps]; [congruence|].
    simpl in *. rewrite IH. split; [tauto|]. intros [H | H]; [congruence | assumption].
Qed.

(** The inverse round trip: joining parts that are free of the separator
    and splitting the result gives the parts back. *)
Lemma split_join (sep : ascii) (parts : list str) :
  parts <> [] -> Forall (fun p => ~ In sep p) parts ->
  split sep (join [sep] parts) = parts.
Proof.
  induction parts as [|p rest IH]; [congruence|]. intros _ Hf.
  inversion Hf as [|? ? Hp Hrest]; subst.
  destruct rest as [|p' rest].
  - simpl. now apply split_nosep.
  - rewrite join_cons by discriminate.
    specialize (IH ltac:(discriminate) Hrest).
    clear Hf. induction p as [|c p IHp].
    + cbn [app]. rewrite split_cons, Ascii.eqb_refl. now rewrite IH.
    + assert (Hc : Ascii.eqb c sep = false).
      { apply Ascii.eqb_neq. intros ->. apply Hp. now left. }
      change ((c :: p) ++ [sep] ++ join [sep] (p' :: rest))
        with (c :: (p ++ [sep] ++ join [sep] (p' :: rest))).
      rewrite split_cons, Hc, IHp; [reflexivity|].
      intros H. apply Hp. now right.
Qed.

Lemma split_single_nil (sep : ascii) (s : str) : split sep s = [[]] -> s = [].
Proof.
  destruct s as [|c s]; [reflexivity|]. rewrite split_cons.
  pose proof (split_nonempty sep s) as Hn. destruct (Ascii.eqb c sep).
  - intros He. injection He as He. contradiction.
  - discriminate.
Qed.

Lemma split_hd_nil (sep : ascii) (s : str) :
  hd [] (split sep s) = [] <-> s = [] \/ hd_error s = Some sep.
Proof.
  destruct s as [|c s]; [simpl; tauto|]. rewrite split_cons.
  destruct (Ascii.eqb c sep) eqn:E.
  - apply Ascii.eqb_eq in E. subst. simpl. tauto.
  - apply Ascii.eqb_neq in E. simpl. split; [discriminate|].
    intros [H | [= H]]; congruence.
Qed.

Lemma split_hd_cons (sep c : ascii) (s : str) :
  c <> sep -> exists p, hd [] (split sep (c :: s)) = c :: p.
Proof.
  intros H. rewrite split_cons. apply Ascii.eqb_neq in H. rewrite H.
  simpl. eauto.
Qed.

Lemma lastOf_cons {A} (x : A) (l : list A) :
  l <> [] -> lastOf (x :: l) = lastOf l.
Proof. destruct l; [congruence | reflexivity]. Qed.

Lemma last_cons {A} (x d : A) (l : list A) :
  l <> [] -> last (x :: l) d = last l d.
Proof. destruct l; [congruence | reflexivity]. Qed.

Lemma split_last_nil (sep : ascii) (s : str) :
  last (split sep s) [] = [] <-> s = [] \/ lastOf s = Some sep.
Proof.
  induction s as [|c s IH]; [simpl; tauto|].
  rewrite split_cons. pose proof (split_nonempty sep s) as Hn.
  destruct (Ascii.eqb c sep) eqn:E.
  - apply Ascii.eqb_eq in E. subst c.
    rewrite last_cons by assumption. rewrite IH.
    destruct s as [|c' s]; [split; intros _; [right | left]; reflexivity|].
    rewrite (lastOf_cons sep (c' :: s)) by discriminate.
    split; (intros [H | H]; [discriminate | now right]).
  - apply Ascii.eqb_neq in E.
    destruct (split sep s) as [|p ps] eqn:Es; [congruence|].
    simpl hd. simpl tl. destruct ps as [|p' ps].
    + simpl last. split; [discriminate|]. intros [H | H]; [discriminate|].
      destruct s as [|c' s]; [cbv [lastOf map last] in H; congruence|].
      rewrite lastOf_cons in H by discriminate.
      assert (Hp : p = []) by (apply IH; now right).
      subst p. apply split_single_nil in Es. discriminate.
    + rewrite last_cons by discriminate.
      rewrite (last_cons p) in IH by discriminate. rewrite IH.
      destruct s as [|c' s]; [discriminate|].
      rewrite (lastOf_cons c (c' :: s)) by discriminate.
      split; (intros [H | H]; [discriminate | now right]).
Qed.

(** The last part of an address that ends in [sep ++ tail]. *)
Lemma split_last_app (sep : ascii) (a b : str) :
  last (split sep (a ++ sep :: b)) [] = last (split sep b) [].
Proof.
  induction a as [|c a IH].
  - cbn [app]. rewrite split_cons, Ascii.eqb_refl.
    apply last_cons, split_nonempty.
  - change ((c :: a) ++ sep :: b) with (c :: (a ++ sep :: b)).
    rewrite split_cons. destruct (Ascii.eqb c sep).
    + rewrite last_cons by apply split_nonempty. exact IH.
    + assert (H2 : (2 <= length (split sep (a ++ sep :: b)))%nat).
      { apply split_length, in_or_app. right. now left. }
      destruct (split sep (a ++ sep :: b)) as [|p [|p' ps]]; simpl in H2; try lia.
      simpl hd. simpl tl. rewrite last_cons by discriminate.
      rewrite last_cons in IH by discriminate. exact IH.
Qed.

Lemma last_in {A} (l : list A) (d : A) : l <> [] -> In (last l d) l.
Proof.
  induction l as [|x l IH]; [congruence|]. intros _.
  destruct l as [|y l]; [now left|].
  right. apply IH. discriminate.
Qed.

Lemma lastOf_last_some {A} (l : list A) (d : A) :
  l <> [] -> lastOf l = Some (last l d).
Proof.
  induction l as [|x l IH]; [congruence|]. intros _.
  destruct l as [|y l]; [reflexivity|].
  rewrite lastOf_cons by discriminate. rewrite last_cons by discriminate.
  apply IH. discriminate.
Qed.

Lemma includes_single (c : ascii) (s : str) :
  includes s [c] = true <-> In c s.
Proof.
  rewrite includes_within. split.
  - intros (a & b & ->). apply in_or_app. right. now left.
  - intros H. apply in_split in H. destruct H as (a & b & ->).
    exists a, b. reflexivity.
Qed.

End SplitJoinFacts.

Section CharFacts.

Ltac each_char c :=
  destruct c as [[|] [|] [|] [|] [|] [|] [|] [|]].

Lemma upperChar_idem (c : ascii) : upperChar (upperChar c) = upperChar c.
Proof. each_char c; reflexivity. Qed.

Lemma lowerChar_idem (c : ascii) : lowerChar (lowerChar c) = lowerChar c.
Proof. each_char c; reflexivity. Qed.

Lemma upperChar_space (c : ascii) : upperChar c = space -> c = space.
Proof. each_char c; vm_compute; congruence. Qed.

Lemma lowerChar_space (c : ascii) : lowerChar c = space -> c = space.
Proof. each_char c; vm_compute; congruence. Qed.

Lemma toUpperCase_idem (s : str) : toUpperCase (toUpperCase s) = toUpperCase s.
Proof.
  unfold toUpperCase. rewrite map_map. apply map_ext. apply upperChar_idem.
Qed.

Lemma toLowerCase_idem (s : str) : toLowerCase (toLowerCase s) = toLowerCase s.
Proof.
  unfold toLowerCase. rewrite map_map. apply map_ext. apply lowerChar_idem.
Qed.

Lemma toUpperCase_space (s : str) : In space (toUpperCase s) -> In space s.
Proof.
  unfold toUpperCase. rewrite in_map_iff. intros (c & Hc & Hin).
  apply upperChar_space in Hc. now subst.
Qed.

Lemma toLowerCase_space (s : str) : In space (toLowerCase s) -> In space s.
Proof.
  unfold toLowerCase. rewrite in_map_iff. intros (c & Hc & Hin).
  apply lowerChar_space in Hc. now subst.
Qed.

End CharFacts.

Section InitialsFacts.

Lemma firstChar_in (c : ascii) (s : str) : firstChar s = Some c -> In c s.
Proof. destruct s; [discriminate|]. intros [= ->]. now left. Qed.

Lemma lastChar_in (c : ascii) (s : str) : lastChar s = Some c -> In c s.
Proof. intros H. now apply lastOf_in. Qed.

(** The four cases of the sum of two first characters. *)
Lemma getInitials_parts (name : str) :
  name <> [] -> In space name ->
  getInitials name =
  match hd [] (split " " name), last (split " " name) [] with
  | [], [] => TypeError
  | a :: _, [] => Ok (toUpperCase (a :: q "undefined"))
  | [], b :: _ => Ok (toUpperCase (q "undefined" ++ [b]))
  | a :: _, b :: _ => Ok (toUpperCase [a; b])
  end.
Proof.
  intros Hn Hin. unfold getInitials.
  destruct name as [|c r]; [congruence|]. cbn [isEmpty].
  apply (split_length space) in Hin. apply Nat.leb_le in Hin.
  change " "%char with space. now rewrite Hin.
Qed.

Lemma getInitials_single (name : str) :
  name <> [] -> ~ In space name ->
  getInitials name = Ok (toUpperCase (firstn 2 name)).
Proof.
  intros Hn Hin. unfold getInitials.
  destruct name as [|c r]; [congruence|]. cbn [isEmpty].
  change " "%char with space. rewrite (split_nosep space) by assumption.
  reflexivity.
Qed.

(** The names on which the sum of the two characters is NaN. *)
Lemma getInitials_error_iff (name : str) :
  getInitials name = TypeError <-> blankEnded name.
Proof.
  destruct name as [|c r] eqn:En; [split; [discriminate | intros [[=] _]]|].
  rewrite <- En. assert (Hn : name <> []) by (subst; discriminate).
  destruct (in_dec ascii_dec space name) as [Hin | Hin].
  - rewrite getInitials_parts by assumption.
    pose proof (split_hd_nil space name) as Hh.
    pose proof (split_last_nil space name) as Hl.
    change " "%char with space.
    destruct (hd [] (split space name)) as [|a s1],
             (last (split space name) []) as [|b s2].
    + split; [intros _ | reflexivity]. unfold blankEnded, firstChar, lastChar. split.
      * destruct (proj1 Hh eq_refl); [contradiction | assumption].
      * destruct (proj1 Hl eq_refl); [contradiction | assumption].
    + split; [discriminate|]. intros [_ H].
      assert (E : b :: s2 = []) by (apply Hl; now right). discriminate.
    + split; [discriminate|]. intros [H _].
      assert (E : a :: s1 = []) by (apply Hh; now right). discriminate.
    + split; [discriminate|]. intros [H _].
      assert (E : a :: s1 = []) by (apply Hh; now right). discriminate.
  - rewrite getInitials_single by assumption.
    split; [discriminate|]. intros [H _]. apply firstChar_in in H. contradiction.
Qed.


End InitialsFacts.

(** X1. [getInitials] raises exactly on the names that begin with a space
    and end with a space, such as the name that is one space: both summed
    characters are then [undefined].  On every other name it returns a
    text that is not empty, the question mark for the empty name. *)
Theorem getInitials_raises_iff (name : str) :
  (getInitials name = TypeError <->
   firstChar name = Some space /\ lastChar name = Some space) /\
  (forall initials, getInitials name = Ok initials -> initials <> []) /\
  (name = [] -> getInitials name = Ok (q "?")).
Proof.
  split; [apply getInitials_error_iff|]. split; [|now intros ->].
  intros initials H. destruct name as [|c r] eqn:En.
  - apply Ok_inj in H. subst initials. discriminate.
  - rewrite <- En in *. assert (Hn : name <> []) by (subst; discriminate).
    destruct (in_dec ascii_dec space name) as [Hin | Hin].
    + rewrite getInitials_parts in H by assumption.
      destruct (hd [] (split " " name)) as [|a s1],
               (last (split " " name) []) as [|b s2];
        [discriminate | | |]; apply Ok_inj in H; subst initials; discriminate.
    + rewrite getInitials_single in H by assumption.
      apply Ok_inj in H. subst initials name. discriminate.
Qed.

(** X2. For an ASCII name that neither begins nor ends with a space,
    [getInitials] returns one or two upper-case characters, the first of
    which is the upper-cased first character of the name; there are two
    of them when the name has a space in it. *)
Theorem getInitials_of_trimmed_name (name : str) (c : ascii) :
  asciiText name ->
  firstChar name = Some c -> c <> space -> lastChar name <> Some space ->
  exists s, getInitials name = Ok s /\
            firstChar s = Some (upperChar c) /\
            (1 <= length s <= 2)%nat /\
            upperCased s /\
            (In space name -> length s = 2%nat).
Proof.
  intros _ Hc Hsp Hl. destruct name as [|c' r] eqn:En; [discriminate|].
  injection Hc as ->. rewrite <- En in *.
  assert (Hn : name <> []) by (subst; discriminate).
  destruct (in_dec ascii_dec space name) as [Hin | Hin].
  - rewrite getInitials_parts by assumption. change " "%char with space.
    destruct (split_hd_cons space c r Hsp) as [p Hp]. rewrite <- En in Hp.
    rewrite Hp.
    destruct (last (split space name) []) as [|b t] eqn:El.
    + exfalso. apply split_last_nil in El. destruct El; [contradiction|].
      now apply Hl.
    + eexists. split; [reflexivity|]. repeat split; try (simpl; lia).
      apply (toUpperCase_idem [c; b]).
  - rewrite getInitials_single by assumption. eexists. split; [reflexivity|].
    rewrite En. repeat split.
    + destruct r; simpl; lia.
    + destruct r; simpl; lia.
    + unfold upperCased. apply toUpperCase_idem.
    + intros H. rewrite <- En in H. contradiction.
Qed.

Lemma getInitials_of_trimmed_name_witness :
  exists s, getInitials (q "Satsuki Kusakabe") = Ok s /\
            firstChar s = Some (upperChar "S"%char) /\
            (1 <= length s <= 2)%nat /\
            upperCased s /\
            (In space (q "Satsuki Kusakabe") -> length s = 2%nat).
Proof.
  apply (getInitials_of_trimmed_name (q "Satsuki Kusakabe") "S"%char).
  - apply Forall_forall. intros c Hc. vm_compute in Hc.
    repeat (destruct Hc as [<- | Hc]; [reflexivity|]). destruct Hc.
  - reflexivity.
  - discriminate.
  - discriminate.
Defined.

(** X3. For an ASCII name with a space at exactly one of its two ends,
    the sum has one [undefined] in it: the initials are a ten-character
    text that contains UNDEFINED. *)
Theorem getInitials_shows_undefined (name : str) :
  asciiText name ->
  (firstChar name = Some space /\ lastChar name <> Some space) \/
  (firstChar name <> Some space /\ lastChar name = Some space) ->
  exists s, getInitials name = Ok s /\
            length s = 10%nat /\
            Within (q "UNDEFINED") s.
Proof.
  intros _ H.
  assert (Hn : name <> []).
  { destruct H as [[H _] | [_ H]]; intros ->; discriminate. }
  assert (Hin : In space name).
  { destruct H as [[H _] | [_ H]];
      [now apply firstChar_in | now apply lastChar_in]. }
  rewrite getInitials_parts by assumption.
  pose proof (split_hd_nil space name) as Hh.
  pose proof (split_last_nil space name) as Hl.
  change " "%char with space.
  destruct (hd [] (split space name)) as [|a s1],
           (last (split space name) []) as [|b s2].
  - exfalso. destruct (proj1 Hh eq_refl) as [|Hf]; [contradiction|].
    destruct (proj1 Hl eq_refl) as [|Hb]; [contradiction|].
    unfold firstChar, lastChar in H. tauto.
  - exists (q "UNDEFINED" ++ [upperChar b]). repeat split.
    exists [], [upperChar b]. reflexivity.
  - exists (upperChar a :: q "UNDEFINED"). repeat split.
    exists [upperChar a], []. now rewrite app_nil_r.
  - exfalso. destruct H as [[H _] | [_ H]].
    + assert (E : a :: s1 = []) by (apply Hh; now right). discriminate.
    + assert (E : b :: s2 = []) by (apply Hl; now right). discriminate.
Qed.

Lemma getInitials_shows_undefined_witness :
  exists s, getInitials (q " Totoro") = Ok s /\
            length s = 10%nat /\
            Within (q "UNDEFINED") s.
Proof.
  apply (getInitials_shows_undefined (q " Totoro")).
  - apply Forall_forall. intros c Hc. vm_compute in Hc.
    repeat (destruct Hc as [<- | Hc]; [reflexivity|]). destruct Hc.
  - left. split; [reflexivity | discriminate].
Defined.

Section CapitalizeFacts.

Lemma capitalize_unfold (s : str) :
  capitalize s =
  if isEmpty s || streq s (q "n/a") || streq s (q "NA") then s
  else join [space] (map capitalizeWord (split space s)).
Proof. reflexivity. Qed.

Lemma capitalizeWord_length (w : str) : length (capitalizeWord w) = length w.
Proof.
  unfold capitalizeWord, toUpperCase, toLowerCase.
  rewrite length_app, !length_map, <- length_app. now rewrite firstn_skipn.
Qed.

Lemma capitalizeWord_idem (w : str) :
  capitalizeWord (capitalizeWord w) = capitalizeWord w.
Proof.
  destruct w as [|c t]; [reflexivity|].
  change (capitalizeWord (c :: t)) with (upperChar c :: toLowerCase t).
  change (capitalizeWord (upperChar c :: toLowerCase t))
    with (upperChar (upperChar c) :: toLowerCase (toLowerCase t)).
  now rewrite upperChar_idem, toLowerCase_idem.
Qed.

Lemma capitalizeWord_space (w : str) :
  ~ In space w -> ~ In space (capitalizeWord w).
Proof.
  intros H Hin. apply H. unfold capitalizeWord in Hin.
  apply in_app_or in Hin. rewrite <- (firstn_skipn 1 w). apply in_or_app.
  destruct Hin as [Hin | Hin].
  - left. now apply toUpperCase_space.
  - right. now apply toLowerCase_space.
Qed.

Lemma join_length_map (sep : str) (f : str -> str) (parts : list str) :
  (forall w, length (f w) = length w) ->
  length (join sep (map f parts)) = length (join sep parts).
Proof.
  intros Hf. induction parts as [|p rest IH]; [reflexivity|].
  destruct rest as [|p' rest]; [apply Hf|].
  change (map f (p :: p' :: rest)) with (f p :: map f (p' :: rest)).
  rewrite (join_cons sep (f p)) by discriminate.
  rewrite (join_cons sep p) by discriminate.
  rewrite !length_app, IH, Hf. reflexivity.
Qed.

End CapitalizeFacts.

(** X4. On an ASCII text [capitalize] keeps the length of its argument,
    and capitalizing a second time changes nothing. *)
Theorem capitalize_idempotent_same_length (s : str) :
  asciiText s ->
  capitalize (capitalize s) = capitalize s /\
  length (capitalize s) = length s.
Proof.
  intros _. rewrite (capitalize_unfold s).
  destruct (isEmpty s || streq s (q "n/a") || streq s (q "NA")) eqn:E.
  - split; [|reflexivity]. now rewrite capitalize_unfold, E.
  - set (r := join [space] (map capitalizeWord (split space s))). split.
    + rewrite capitalize_unfold.
      destruct (isEmpty r || streq r (q "n/a") || streq r (q "NA"));
        [reflexivity|].
      unfold r at 1. rewrite split_join.
      * rewrite map_map. unfold r. f_equal. apply map_ext.
        apply capitalizeWord_idem.
      * pose proof (split_nonempty space s) as Hn.
        destruct (split space s); [congruence | discriminate].
      * rewrite Forall_map. eapply Forall_impl; [|apply split_parts_nosep].
        intros w. apply capitalizeWord_space.
    + unfold r. rewrite join_length_map by apply capitalizeWord_length.
      now rewrite join_split.
Qed.

Lemma capitalize_idempotent_same_length_witness :
  capitalize (capitalize (q "dark BROWN")) = capitalize (q "dark BROWN") /\
  length (capitalize (q "dark BROWN")) = length (q "dark BROWN").
Proof.
  apply (capitalize_idempotent_same_length (q "dark BROWN")).
  apply Forall_forall. intros c Hc. vm_compute in Hc.
  repeat (destruct Hc as [<- | Hc]; [reflexivity|]). destruct Hc.
Defined.

Section ReferenceFacts.

Lemma join_snoc (sep : str) (front : list str) (p : str) :
  front <> [] -> join sep (front ++ [p]) = join sep front ++ sep ++ p.
Proof.
  induction front as [|x front IH]; [congruence|]. intros _.
  destruct front as [|y front]; [reflexivity|].
  change ((x :: y :: front) ++ [p]) with (x :: (y :: front) ++ [p]).
  rewrite (join_cons sep x) by discriminate.
  rewrite (join_cons sep x) by discriminate.
  rewrite IH by discriminate. now rewrite <- !app_assoc.
Qed.

(** A string with the separator in it ends in the separator followed by
    its last part. *)
Lemma last_segment (sep : ascii) (s : str) :
  In sep s -> exists base, s = base ++ sep :: last (split sep s) [].
Proof.
  intros Hin. apply split_length in Hin.
  pose proof (join_split sep s) as Hj.
  destruct (split sep s) as [|p ps] eqn:Es; [simpl in Hin; lia|].
  assert (Hne : p :: ps <> []) by discriminate.
  rewrite (app_removelast_last [] Hne) in Hj.
  assert (Hf : removelast (p :: ps) <> []).
  { destruct ps; [simpl in Hin; lia | discriminate]. }
  rewrite join_snoc in Hj by assumption.
  eexists. symmetry. exact Hj.
Qed.

(** The text that [getIdFromUrl] and [getSpeciesById] take from a
    reference. *)
Lemma last_part_refersTo (ref k : str) :
  last (split slash ref) [] = k <-> refersTo ref k.
Proof.
  split.
  - intros <-. split.
    + pose proof (split_parts_nosep slash ref) as Hf.
      rewrite Forall_forall in Hf. apply Hf. apply last_in, split_nonempty.
    + destruct (in_dec ascii_dec slash ref) as [Hin | Hin].
      * right. now apply last_segment.
      * left. now rewrite split_nosep.
  - intros [Hk [-> | [base ->]]].
    + now rewrite split_nosep.
    + rewrite split_last_app. now rewrite split_nosep.
Qed.

Lemma lookup_key_refersTo (ref k : str) :
  (if includes ref (q "/") then last (split "/" ref) [] else ref) = k <->
  refersTo ref k.
Proof.
  change (q "/") with [slash]. change "/"%char with slash.
  destruct (includes ref [slash]) eqn:E.
  - apply last_part_refersTo.
  - assert (Hin : ~ In slash ref).
    { intros H. apply includes_single in H. congruence. }
    rewrite <- last_part_refersTo. now rewrite split_nosep.
Qed.

Lemma find_unique {A} (f : A -> str) (k : str) (l : list A) (s : A) :
  NoDup (map f l) -> In s l -> f s = k ->
  find (fun x => streq (f x) k) l = Some s.
Proof.
  intros Hnd Hin Hk. induction l as [|x l IH]; [destruct Hin|].
  inversion Hnd as [|? ? Hx Hl]; subst. simpl.
  destruct Hin as [-> | Hin]; [now rewrite streq_refl|].
  destruct (streq (f x) (f s)) eqn:E; [|now apply IH].
  apply streq_true_iff in E. exfalso. apply Hx. rewrite E.
  now apply in_map.
Qed.

End ReferenceFacts.

(** X5. [getIdFromUrl] returns the text after the last slash of a
    non-empty address, the whole address when it has no slash, and
    nothing for the empty address. *)
Theorem getIdFromUrl_is_last_segment (url i : str) :
  getIdFromUrl url = Some i <-> url <> [] /\ refersTo url i.
Proof.
  unfold getIdFromUrl. destruct url as [|c r] eqn:Eu.
  - simpl. split; [discriminate | intros [H _]; congruence].
  - cbn [isEmpty]. rewrite <- Eu.
    rewrite (lastOf_last_some (split "/" url) []) by apply split_nonempty.
    rewrite <- last_part_refersTo. change "/"%char with slash.
    split.
    + intros [= H]. split; [subst; discriminate | assumption].
    + intros [_ ->]. reflexivity.
Qed.

(** X6. In a collection of species with pairwise distinct ids,
    [getSpeciesById] returns a species exactly when it is in the
    collection and the reference is its id or an address that ends in a
    slash and its id. *)
Theorem getSpeciesById_finds_referenced (ss : list Species.t) :
  NoDup (map Species.id ss) ->
  forall (ref : str) (s : Species.t),
    getSpeciesById ref (Some ss) = Ok (Some s) <->
    In s ss /\ refersTo ref (Species.id s).
Proof.
  intros Hnd ref s. unfold getSpeciesById. cbn [deref bind]. split.
  - intros H. apply Ok_inj in H. apply find_some in H. destruct H as [Hin Hs].
    apply streq_true_iff in Hs. split; [assumption|].
    apply lookup_key_refersTo. now symmetry.
  - intros [Hin Hr]. apply lookup_key_refersTo in Hr. f_equal.
    now apply find_unique.
Qed.

Lemma getSpeciesById_finds_referenced_witness :
  NoDup (map Species.id [Samples.human; Cases.cat]) /\
  getSpeciesById (q "https://api/species/s2") (Some [Samples.human; Cases.cat])
  = Ok (Some Cases.cat).
Proof.
  assert (Hnd : NoDup (map Species.id [Samples.human; Cases.cat])).
  { repeat constructor; simpl; intuition discriminate. }
  split; [exact Hnd|].
  apply (getSpeciesById_finds_referenced [Samples.human; Cases.cat] Hnd).
  split; [right; now left|]. split.
  - simpl. intuition discriminate.
  - right. exists (q "https://api/species"). reflexivity.
Defined.

Section FilterFacts.

Lemma matchesFilm_widens (a b : str) (films : option (list str)) :
  Within a b -> matchesFilm b films = true -> matchesFilm a films = true.
Proof.
  intros Hab H. apply matchesFilm_iff in H.
  destruct H as (urls & url & Hf & Hin & Hw). apply matchesFilm_iff.
  exists urls, url. repeat split; try assumption.
  exact (within_trans _ _ _ Hab Hw).
Qed.

Lemma filter_widens {A} (keep keep' : A -> bool) (l : list A) :
  (forall x, keep x = true -> keep' x = true) ->
  incl (filter keep l) (filter keep' l).
Proof.
  intros H x Hx. apply filter_In in Hx. apply filter_In.
  split; [tauto | apply H; tauto].
Qed.

End FilterFacts.

(** X7. The three filters match by substring, so they widen when the
    film id shrinks: when the id [a] occurs within the id [b], every
    person, location and vehicle listed for [b] is listed for [a] too. *)
Theorem film_filters_widen_for_contained_id (a b : str) :
  Within a b ->
  (forall ps la lb,
     getPeopleForFilm a (Some ps) = Ok la ->
     getPeopleForFilm b (Some ps) = Ok lb -> incl lb la) /\
  (forall ls la lb,
     getLocationsForFilm a (Some ls) = Ok la ->
     getLocationsForFilm b (Some ls) = Ok lb -> incl lb la) /\
  (forall vs la lb,
     getVehiclesForFilm a (Some vs) = Ok la ->
     getVehiclesForFilm b (Some vs) = Ok lb -> incl lb la).
Proof.
  intros Hab. repeat split; intros l la lb Ha Hb;
    apply Ok_inj in Ha; apply Ok_inj in Hb; subst la lb;
    apply filter_widens; intros x; apply matchesFilm_widens; assumption.
Qed.

Lemma film_filters_widen_for_contained_id_witness :
  Within (q "f1") (q "f12") /\
  incl [Samples.stranger] [Samples.satsuki; Samples.stranger].
Proof.
  assert (H : Within (q "f1") (q "f12")) by (exists [], (q "2"); reflexivity).
  split; [exact H|].
  apply (proj1 (film_filters_widen_for_contained_id (q "f1") (q "f12") H)
           [Samples.satsuki; Samples.stranger]); reflexivity.
Defined.

Section HeroFacts.

Lemma lower_mammal : Forall lowerLetter (q "mammal").
Proof.
  apply Forall_forall. intros c Hc. vm_compute in Hc.
  repeat (destruct Hc as [<- | Hc]; [vm_compute; split; discriminate|]).
  destruct Hc.
Qed.

End HeroFacts.

(** X8. [getSpeciesHeroClass] looks for the word in any mix of cases and
    tries mammal first: a classification with mammal in it, whatever
    else it names, gets the mammal class. *)
Theorem getSpeciesHeroClass_mammal_first (pre w post : str) :
  AnyCase w (q "mammal") ->
  getSpeciesHeroClass (Some (pre ++ w ++ post)) = q "species-hero-mammal".
Proof.
  intros Hw. apply (toLowerCase_anycase _ lower_mammal) in Hw.
  assert (Hne : pre ++ w ++ post <> []).
  { destruct w; [discriminate|]. destruct pre; discriminate. }
  unfold getSpeciesHeroClass.
  destruct (pre ++ w ++ post) as [|c r] eqn:E; [congruence|].
  cbn [ifTruthy]. rewrite <- E.
  assert (Hi : includes (toLowerCase (pre ++ w ++ post)) (q "mammal") = true).
  { apply includes_within. unfold toLowerCase in *. rewrite !map_app, Hw.
    eexists _, _. reflexivity. }
  now rewrite Hi.
Qed.

Lemma getSpeciesHeroClass_mammal_first_witness :
  getSpeciesHeroClass (Some (q "Flying " ++ q "MAMMAL" ++ q " or bird"))
  = q "species-hero-mammal".
Proof.
  apply (getSpeciesHeroClass_mammal_first (q "Flying ") (q "MAMMAL") (q " or bird")).
  apply (toLowerCase_anycase _ lower_mammal). reflexivity.
Defined.

(** X9. A film that no person, location or vehicle refers to still gets
    its page, whether or not the species were fetched: the four counts
    are 0, the three lists hold the None tag and the characters grid
    holds the placeholder sentence. *)
Theorem film_page_without_associations film filmId data ls ps vs :
  locations data = Some ls -> people data = Some ps ->
  vehicles data = Some vs ->
  filmLocationsOf filmId ls = [] -> filmPeopleOf filmId ps = [] ->
  filmVehiclesOf filmId vs = [] ->
  exists html,
    generateFilmPage film filmId data = Ok html /\
    Within (charactersSection 0 noCharacters) html /\
    Within (locationsSection 0 noneTag) html /\
    Within (speciesSection 0 noneTag) html /\
    Within (vehiclesSection 0 noneTag) html.
Proof.
  intros Hl Hp Hv El Ep Ev. unfold generateFilmPage.
  rewrite Hl, Hp, Hv.
  unfold getLocationsForFilm, getPeopleForFilm, getVehiclesForFilm.
  cbn [deref bind].
  fold (filmLocationsOf filmId ls) (filmPeopleOf filmId ps) (filmVehiclesOf filmId vs).
  rewrite El, Ep, Ev. cbn [mapM bind speciesRefs filter map].
  change (newSet []) with (@nil str).
  change (filmSpeciesHTML data []) with (Ok noneTag). cbn [bind].
  eexists. split; [reflexivity|].
  repeat split; apply within_base_content.
  - apply (filmHeader_characters film _ [] [] [] [] []).
  - apply (filmHeader_locations film _ [] [] [] []).
  - apply (filmHeader_species film _ [] [] [] []).
  - apply (filmHeader_vehicles film _ [] [] [] []).
Qed.

Lemma film_page_without_associations_witness :
  exists html,
    generateFilmPage Samples.f2 (q "f2") Samples.catalog = Ok html /\
    Within (charactersSection 0 noCharacters) html /\
    Within (locationsSection 0 noneTag) html /\
    Within (speciesSection 0 noneTag) html /\
    Within (vehiclesSection 0 noneTag) html.
Proof.
  apply (film_page_without_associations Samples.f2 (q "f2") Samples.catalog
           [Samples.castle] [Samples.satsuki; Samples.stranger] []);
    reflexivity.
Defined.

Section IndexCardFacts.






End IndexCardFacts.



Section SpeciesPageFacts.

Lemma within_species_content (x content title : str) :
  Within x content -> Within x (getSpeciesTemplate content title).
Proof.
  intros H. unfold getSpeciesTemplate.
  do 3 apply within_app_r. now apply within_app_l.
Qed.

Lemma speciesHeader_characters species sp ph fh :
  Within (speciesCharactersSection (length sp) (orElse ph noSpeciesCharacters))
         (speciesHeader species sp ph fh).
Proof.
  unfold speciesHeader, speciesCharactersSection, noSpeciesCharacters.
  find_piece.
Qed.

Lemma speciesHeader_films species sp ph fh :
  Within (speciesFilmsList fh) (speciesHeader species sp ph fh).
Proof. unfold speciesHeader, speciesFilmsList. find_piece. Qed.

Lemma getSpeciesPeople_value species data ps :
  people data = Some ps ->
  getSpeciesPeople species data =
  Ok (referencedPeople ps (refsOf (Species.people species))).
Proof.
  intros Ep. unfold getSpeciesPeople, referencedPeople.
  destruct (Species.people species) as [urls|]; [|reflexivity].
  rewrite (mapM_total _
             (fun url => find (fun p => sameId (Person.id p) (getIdFromUrl url)) ps)).
  - reflexivity.
  - intros url _. unfold resolvePerson. now rewrite Ep.
Qed.

Lemma getSpeciesFilms_value species data fs :
  films data = Some fs ->
  getSpeciesFilms species data =
  Ok (referencedFilms fs (refsOf (Species.films species))).
Proof.
  intros Ef. unfold getSpeciesFilms, referencedFilms.
  destruct (Species.films species) as [urls|]; [|reflexivity].
  rewrite (mapM_total _
             (fun url => find (fun f => sameId (Film.id f) (getIdFromUrl url)) fs)).
  - reflexivity.
  - intros url _. unfold resolveFilm. now rewrite Ef.
Qed.






Lemma referencedPeople_incl ps urls : incl (referencedPeople ps urls) ps.
Proof. intros p. unfold referencedPeople. apply find_somes_in. Qed.

Lemma referencedFilms_incl fs urls : incl (referencedFilms fs urls) fs.
Proof. intros f. unfold referencedFilms. apply find_somes_in. Qed.

Lemma referenced_length {A} (pick : str -> option A) (urls : list str) :
  (length (somes (map pick (filter isEntityUrl urls))) <= length urls)%nat.
Proof.
  etransitivity; [apply somes_length|]. rewrite length_map.
  apply filter_length_le.
Qed.

Lemma Forall2_length_eq {A B} (R : A -> B -> Prop) (l : list A) (l' : list B) :
  Forall2 R l l' -> length l = length l'.
Proof. induction 1; simpl; congruence. Qed.

End SpeciesPageFacts.

(** X11. With the films and the people fetched and initials for every
    person that the references of the species resolve to, a species
    page is produced.  It has one card for every
    reference to a person that resolves, in the order of the references
    and with repetitions kept; the number in the heading is the number
    of these cards, and the references that resolve to nothing add
    neither a card nor a count.  The films list has the tags of the
    films that the references resolve to, or the None tag. *)
Theorem species_page_counts_its_cards species speciesId data fs ps :
  films data = Some fs -> people data = Some ps ->
  Forall (fun person => hasInitials (Person.name person))
         (referencedPeople ps (refsOf (Species.people species))) ->
  exists cards html,
    generateSpeciesPage species speciesId data = Ok html /\
    Forall2 (fun person card => speciesCharacterCard person = Ok card)
            (referencedPeople ps (refsOf (Species.people species))) cards /\
    Within (speciesCharactersSection (length cards)
              (orElse (join [] cards) noSpeciesCharacters)) html /\
    Within (speciesFilmsList
              (tagsOrNone
                 (map filmTag (referencedFilms fs (refsOf (Species.films species))))
                 (length (referencedFilms fs (refsOf (Species.films species))))))
           html /\
    incl (referencedPeople ps (refsOf (Species.people species))) ps /\
    incl (referencedFilms fs (refsOf (Species.films species))) fs /\
    (length cards <= length (refsOf (Species.people species)))%nat.
Proof.
  intros Ef Ep Hi. unfold generateSpeciesPage.
  rewrite (getSpeciesPeople_value species data ps Ep).
  rewrite (getSpeciesFilms_value species data fs Ef). cbn [bind].
  set (sp := referencedPeople ps (refsOf (Species.people species))).
  set (sf := referencedFilms fs (refsOf (Species.films species))).
  destruct (mapM_ok speciesCharacterCard sp) as [cards Hc].
  { intros person Hin. apply speciesCharacterCard_ok.
    rewrite Forall_forall in Hi. now apply Hi. }
  rewrite Hc. cbn [bind]. exists cards. eexists.
  split; [reflexivity|].
  pose proof (mapM_Forall2 _ _ _ Hc) as HF.
  pose proof (Forall2_length_eq _ _ _ HF) as HL.
  split; [exact HF|]. split.
  { apply within_species_content. rewrite <- HL.
    apply speciesHeader_characters. }
  split.
  { apply within_species_content. apply speciesHeader_films. }
  split; [apply referencedPeople_incl|].
  split; [apply referencedFilms_incl|].
  rewrite <- HL. apply referenced_length.
Qed.

Lemma species_page_counts_its_cards_witness :
  exists cards html,
    generateSpeciesPage Cases.cat (q "s2") Samples.catalog = Ok html /\
    Forall2 (fun person card => speciesCharacterCard person = Ok card)
            (referencedPeople [Samples.satsuki; Samples.stranger]
               (refsOf (Species.people Cases.cat))) cards /\
    Within (speciesCharactersSection (length cards)
              (orElse (join [] cards) noSpeciesCharacters)) html /\
    Within (speciesFilmsList
              (tagsOrNone
                 (map filmTag
                    (referencedFilms [Samples.f3; Samples.f2; Samples.f1]
                       (refsOf (Species.films Cases.cat))))
                 (length
                    (referencedFilms [Samples.f3; Samples.f2; Samples.f1]
                       (refsOf (Species.films Cases.cat))))))
           html /\
    incl (referencedPeople [Samples.satsuki; Samples.stranger]
            (refsOf (Species.people Cases.cat)))
         [Samples.satsuki; Samples.stranger] /\
    incl (referencedFilms [Samples.f3; Samples.f2; Samples.f1]
            (refsOf (Species.films Cases.cat)))
         [Samples.f3; Samples.f2; Samples.f1] /\
    (length cards <= length (refsOf (Species.people Cases.cat)))%nat.
Proof.
  apply (species_page_counts_its_cards Cases.cat (q "s2") Samples.catalog
           [Samples.f3; Samples.f2; Samples.f1]
           [Samples.satsuki; Samples.stranger]);
    try reflexivity.
  repeat constructor; eexists; reflexivity.
Defined.

(* ================================================================= *)
(** * Further properties of a run *)

Section TraceFacts.




End TraceFacts.

Section MainTraces.

Opaque generateStaticFiles.

Lemma main_required_data_missing minify data :
  films data = None \/ people data = None \/ species data = None ->
  main minify data =
  ({| console := [q "🎬 Studio Ghibli Static HTML Generator
"; q "Fetching data from Ghibli API..."; q "✓ Data fetched successfully";
                  q "❌ Failed to fetch required data"];
      files := [] |}, 1%Z).
Proof.
  intros H. unfold main, mainBody, fetchAllData, lengthOf. run.
  assert (E : isNull (films data) || isNull (people data) || isNull (species data)
              = true).
  { destruct H as [-> | [-> | ->]]; cbn [isNull orb];
      rewrite ?orb_true_r; reflexivity. }
  rewrite E. run. reflexivity.
Qed.


Transparent generateStaticFiles.

End MainTraces.

(** X12. When the films, the people or the species were not fetched,
    the run prints that the required data is missing and ends with
    status 1, having written no file. *)
Theorem main_stops_without_required_data minify data :
  films data = None \/ people data = None \/ species data = None ->
  exitStatus minify data = 1%Z /\
  files (finalState minify data) = [] /\
  lastOf (console (finalState minify data))
  = Some (q "❌ Failed to fetch required data").
Proof.
  intros H. unfold exitStatus, finalState.
  rewrite (main_required_data_missing minify data H). repeat split.
Qed.

Lemma main_stops_without_required_data_witness :
  exitStatus None Cases.catalogWithoutFilms = 1%Z /\
  files (finalState None Cases.catalogWithoutFilms) = [] /\
  lastOf (console (finalState None Cases.catalogWithoutFilms))
  = Some (q "❌ Failed to fetch required data").
Proof.
  apply (main_stops_without_required_data None Cases.catalogWithoutFilms).
  left. reflexivity.
Defined.





(* ================================================================= *)
(** * Further properties of the soot explosion *)

Section ExplosionFacts.

Variable random : nat -> Q.
Variables cos sin : Q -> Q.
Variable PI : Q.

Let create := Soot.createParticle random cos sin PI.
Let trigger := Soot.triggerSootExplosion random cos sin PI.

Lemma iter_unfold (x y : Q) (pg : Soot.Page) (n : nat) :
  Nat.iter (S n) (create x y) pg = create x y (Nat.iter n (create x y) pg).
Proof. reflexivity. Qed.

Lemma iter_create_sprite (x y : Q) (pg : Soot.Page) (n : nat) :
  Soot.classList (Nat.iter n (create x y) pg) = Soot.classList pg /\
  Soot.animation (Nat.iter n (create x y) pg) = Soot.animation pg /\
  Soot.draws (Nat.iter n (create x y) pg) = (Soot.draws pg + 5 * n)%nat.
Proof.
  induction n as [|n (Hc & Ha & Hd)].
  - cbn [Nat.iter nat_rect]. repeat split. lia.
  - rewrite iter_unfold. unfold create at 1 3 5, Soot.createParticle.
    cbv zeta. cbn [Soot.classList Soot.animation Soot.draws].
    repeat split; try assumption. rewrite Hd. lia.
Qed.

Lemma iter_create_body (P : Soot.Particle -> Prop) (x y : Q) :
  (forall pg, exists p,
      Soot.body (create x y pg) = Soot.body pg ++ [p] /\ P p) ->
  forall (n : nat) (pg : Soot.Page),
  exists particles,
    length particles = n /\ Forall P particles /\
    Soot.body (Nat.iter n (create x y) pg) = Soot.body pg ++ particles.
Proof.
  intros H n pg. induction n as [|n (ps & Hl & Hp & Hb)].
  - exists []. cbn [Nat.iter nat_rect]. rewrite app_nil_r.
    repeat split. constructor.
  - rewrite iter_unfold.
    destruct (H (Nat.iter n (create x y) pg)) as (p & Hb' & Pp).
    exists (ps ++ [p]). split; [rewrite length_app; simpl; lia|].
    split; [apply Forall_app; split; [exact Hp | now constructor]|].
    rewrite Hb', Hb, <- app_assoc. reflexivity.
Qed.

Lemma trigger_exploding (x y : Q) (pg : Soot.Page) :
  exploding pg = true -> trigger x y pg = pg.
Proof.
  intros H. unfold trigger, Soot.triggerSootExplosion.
  unfold exploding in H. now rewrite H.
Qed.

(** The page after a click that starts an explosion. *)
Lemma trigger_fresh (x y : Q) (pg : Soot.Page) :
  exploding pg = false ->
  exists n,
    n = Z.to_nat (Soot.particleCount (random (Soot.draws pg))) /\
    Soot.classList (trigger x y pg) = Soot.classList pg ++ [q "soot-exploding"] /\
    Soot.animation (trigger x y pg) = q "sootDisintegrate 1100ms ease-out forwards" /\
    Soot.draws (trigger x y pg) = (Soot.draws pg + 1 + 5 * n)%nat /\
    Soot.body (trigger x y pg) =
      Soot.body
        (Nat.iter n (create x y)
           {| Soot.classList := Soot.classList pg ++ [q "soot-exploding"];
              Soot.animation := q "sootDisintegrate 1100ms ease-out forwards";
              Soot.body := Soot.body pg;
              Soot.timers := Soot.timers pg;
              Soot.draws := Soot.draws pg + 1 |}).
Proof.
  intros H. unfold trigger, Soot.triggerSootExplosion.
  unfold exploding in H. rewrite H. cbv zeta.
  cbn [Soot.classList Soot.animation Soot.draws Soot.body].
  eexists. split; [reflexivity|].
  match goal with |- context [Nat.iter ?n ?f ?marked] =>
    destruct (iter_create_sprite x y marked n) as (Hc & Ha & Hd) end.
  fold create. rewrite Hc, Ha, Hd. repeat split.
Qed.

Lemma existsb_exploding_app (l : list str) :
  existsb (streq (q "soot-exploding")) (l ++ [q "soot-exploding"]) = true.
Proof. rewrite existsb_app. apply orb_true_iff. right. reflexivity. Qed.


End ExplosionFacts.

(** X15. A click on a sprite that is exploding is ignored: a second
    click, wherever it lands, leaves the page as the first click made
    it, with no further particle, timer or random draw. *)
Theorem second_click_changes_nothing random cos sin PI x1 y1 x2 y2 pg :
  Soot.triggerSootExplosion random cos sin PI x2 y2
    (Soot.triggerSootExplosion random cos sin PI x1 y1 pg)
  = Soot.triggerSootExplosion random cos sin PI x1 y1 pg.
Proof.
  destruct (exploding pg) eqn:E.
  - now rewrite !(trigger_exploding random cos sin PI _ _ pg E).
  - apply trigger_exploding.
    destruct (trigger_fresh random cos sin PI x1 y1 pg E) as (n & _ & Hc & _).
    unfold exploding. rewrite Hc. apply existsb_exploding_app.
Qed.



Section TrajectoryFacts.

Variable random : nat -> Q.
Variables cos sin : Q -> Q.
Variable PI : Q.
Hypothesis random_range : forall n, 0 <= random n /\ random n < 1.
Hypothesis cos_range : forall a, -(1) <= cos a /\ cos a <= 1.
Hypothesis sin_range : forall a, -(1) <= sin a /\ sin a <= 1.

Lemma scaled_range (c d : Q) :
  -(1) <= c -> c <= 1 -> 0 <= d -> - d <= c * d /\ c * d <= d.
Proof.
  intros L H D. split.
  - assert (E : (-(1)) * d <= c * d) by (apply Qmult_le_compat_r; assumption).
    lra.
  - assert (E : c * d <= 1 * d) by (apply Qmult_le_compat_r; assumption).
    lra.
Qed.

Lemma create_trajectory (x y : Q) (pg : Soot.Page) :
  exists p,
    Soot.body (Soot.createParticle random cos sin PI x y pg)
      = Soot.body pg ++ [p] /\
    trajectoryInRange p.
Proof.
  unfold Soot.createParticle. cbv zeta. eexists.
  split; [reflexivity|]. unfold trajectoryInRange. cbn [Soot.tx Soot.ty].
  destruct (random_range (Soot.draws pg + 2)) as [L2 H2].
  destruct (random_range (Soot.draws pg + 3)) as [L3 H3].
  set (d := 40 + random (Soot.draws pg + 2) * 120).
  assert (D : 0 <= d) by (unfold d; lra).
  assert (D' : d < 160) by (unfold d; lra).
  set (a := random (Soot.draws pg + 1) * PI * 2).
  destruct (cos_range a) as [Lc Hc]. destruct (sin_range a) as [Ls Hs].
  destruct (scaled_range (cos a) d Lc Hc D) as [C1 C2].
  destruct (scaled_range (sin a) d Ls Hs D) as [S1 S2].
  unfold Soot.round.
  split; apply Qfloor_between; unfold inject_Z; lra.
Qed.

End TrajectoryFacts.

(** X17. With a cosine and a sine that stay within -1 and 1, every
    particle of an explosion travels at most 160 to either side, at most
    240 upward and at most 140 downward: the vertical offset is shifted
    upward by the bias. *)
Theorem explosion_trajectories_bounded random cos sin PI clickX clickY pg :
  (forall n, 0 <= random n /\ random n < 1) ->
  (forall a, -(1) <= cos a /\ cos a <= 1) ->
  (forall a, -(1) <= sin a /\ sin a <= 1) ->
  exploding pg = false ->
  exists particles,
    Soot.body (Soot.triggerSootExplosion random cos sin PI clickX clickY pg)
      = Soot.body pg ++ particles /\
    Forall trajectoryInRange particles.
Proof.
  intros Hr Hc Hs E.
  destruct (trigger_fresh random cos sin PI clickX clickY pg E)
    as (n & _ & _ & _ & _ & Hb).
  match type of Hb with _ = Soot.body (Nat.iter n _ ?marked) =>
    destruct (iter_create_body random cos sin PI trajectoryInRange
                clickX clickY
                (create_trajectory random cos sin PI Hr Hc Hs clickX clickY)
                n marked)
      as (ps & _ & Hp & Hps) end.
  exists ps. rewrite Hb, Hps. split; [reflexivity | exact Hp].
Qed.

Lemma explosion_trajectories_bounded_witness :
  exists particles,
    Soot.body (Soot.triggerSootExplosion Samples.halfDraws Samples.flatCos
                 Samples.flatSin Samples.approxPI 100 200 Samples.sprite)
      = Soot.body Samples.sprite ++ particles /\
    Forall trajectoryInRange particles.
Proof.
  apply (explosion_trajectories_bounded Samples.halfDraws Samples.flatCos
           Samples.flatSin Samples.approxPI 100 200 Samples.sprite).
  - intros n. split; [discriminate | reflexivity].
  - intros a. unfold Samples.flatCos. split; lra.
  - intros a. unfold Samples.flatSin. split; lra.
  - reflexivity.
Defined.

Section TimerFacts.

Lemma hideSprite_classes (pg : Soot.Page) (c : str) :
  In c (Soot.classList (Soot.hideSprite pg)) <->
  (In c (Soot.classList pg) \/ c = q "soot-hidden") /\ c <> q "soot-exploding".
Proof.
  unfold Soot.hideSprite. cbn [Soot.classList].
  rewrite filter_In, Set_add_in, negb_true_iff, streq_false_iff. tauto.
Qed.

Lemma hideSprite_not_exploding (pg : Soot.Page) :
  exploding (Soot.hideSprite pg) = false.
Proof.
  unfold exploding. apply not_true_is_false. intros H.
  apply existsb_streq in H. apply hideSprite_classes in H. now destruct H.
Qed.

Lemma trigger_keeps_classes random cos sin PI x y (pg : Soot.Page) (c : str) :
  In c (Soot.classList pg) ->
  In c (Soot.classList (Soot.triggerSootExplosion random cos sin PI x y pg)).
Proof.
  intros H. destruct (exploding pg) eqn:E.
  - now rewrite trigger_exploding.
  - destruct (trigger_fresh random cos sin PI x y pg E) as (n & _ & Hc & _).
    rewrite Hc. apply in_or_app. now left.
Qed.

End TimerFacts.

(** X18. When the timer of an explosion fires, the sprite gets the class
    that hides it and loses the class that marks the explosion, its
    inline animation is cleared and its other classes and the particles
    stay.  Nothing takes the hiding class away again: it survives every
    later click and every later firing of the timer. *)
Theorem sprite_is_hidden_for_good random cos sin PI x y pg :
  exploding pg = false ->
  hidden (Soot.hideSprite (Soot.triggerSootExplosion random cos sin PI x y pg)) /\
  exploding (Soot.hideSprite (Soot.triggerSootExplosion random cos sin PI x y pg))
  = false /\
  Soot.animation
    (Soot.hideSprite (Soot.triggerSootExplosion random cos sin PI x y pg)) = [] /\
  Soot.body (Soot.hideSprite (Soot.triggerSootExplosion random cos sin PI x y pg))
  = Soot.body (Soot.triggerSootExplosion random cos sin PI x y pg) /\
  incl (Soot.classList pg)
       (Soot.classList
          (Soot.hideSprite (Soot.triggerSootExplosion random cos sin PI x y pg))) /\
  (forall later x' y',
      hidden later ->
      hidden (Soot.triggerSootExplosion random cos sin PI x' y' later) /\
      hidden (Soot.hideSprite later)).
Proof.
  intros E. split.
  { apply hideSprite_classes. split; [now right | discriminate]. }
  split; [apply hideSprite_not_exploding|].
  split; [reflexivity|]. split; [reflexivity|]. split.
  - intros c Hc. apply hideSprite_classes. split.
    + left. now apply trigger_keeps_classes.
    + intros ->. unfold exploding in E.
      apply existsb_streq in Hc. congruence.
  - intros later x' y' H. split.
    + now apply trigger_keeps_classes.
    + apply hideSprite_classes. split; [now left | discriminate].
Qed.

Lemma sprite_is_hidden_for_good_witness :
  hidden (Soot.hideSprite
            (Soot.triggerSootExplosion Samples.halfDraws Samples.flatCos
               Samples.flatSin Samples.approxPI 100 200 Samples.sprite)) /\
  Soot.classList
    (Soot.hideSprite
       (Soot.triggerSootExplosion Samples.halfDraws Samples.flatCos
          Samples.flatSin Samples.approxPI 100 200 Samples.sprite))
  = [q "soot-sprite"; q "soot-hidden"].
Proof.
  split.
  - exact (proj1 (sprite_is_hidden_for_good Samples.halfDraws Samples.flatCos
                    Samples.flatSin Samples.approxPI 100 200 Samples.sprite
                    eq_refl)).
  - reflexivity.
Defined.

Section SuccessFacts.



Lemma filmFile_injective (a b : str) : filmFile a = filmFile b -> a = b.
Proof.
  unfold filmFile. intros H. apply app_inv_head in H. now apply app_inv_tail in H.
Qed.

Lemma speciesFile_injective (a b : str) : speciesFile a = speciesFile b -> a = b.
Proof.
  unfold speciesFile. intros H. apply app_inv_head in H.
  now apply app_inv_tail in H.
Qed.

Lemma NoDup_map_injective {A B} (f : A -> B) (l : list A) :
  (forall a b, f a = f b -> a = b) -> NoDup l -> NoDup (map f l).
Proof.
  intros Hf. induction 1 as [|x l Hx _ IH]; [constructor|].
  simpl. constructor; [|exact IH].
  intros H. apply in_map_iff in H. destruct H as (y & Hy & Hin).
  apply Hf in Hy. now subst.
Qed.

Lemma expectedFiles_nodup (fs : list Film.t) (ss : list Species.t) :
  NoDup (map Film.id fs) -> NoDup (map Species.id ss) ->
  NoDup (expectedFiles fs ss).
Proof.
  intros Hf Hs. unfold expectedFiles.
  assert (Nf : NoDup (map (fun film => filmFile (Film.id film))
                          (sort byReleaseYear fs))).
  { rewrite <- (map_map Film.id filmFile).
    apply NoDup_map_injective; [apply filmFile_injective|].
    eapply Permutation_NoDup; [|exact Hf]. apply Permutation_map.
    rewrite byReleaseYear_byKey. apply sort_perm. }
  assert (Ns : NoDup (map (fun species => speciesFile (Species.id species)) ss)).
  { rewrite <- (map_map Species.id speciesFile).
    apply NoDup_map_injective; [apply speciesFile_injective | exact Hs]. }
  constructor.
  - intros H. apply in_app_or in H.
    destruct H as [H | H]; apply in_map_iff in H; destruct H as (x & Hx & _).
    + unfold filmFile in Hx. vm_compute in Hx. discriminate.
    + unfold speciesFile in Hx. vm_compute in Hx. discriminate.
  - apply NoDup_app; [exact Nf | exact Ns|].
    intros name H1 H2.
    apply in_map_iff in H1. destruct H1 as (film & <- & _).
    apply in_map_iff in H2. destruct H2 as (species & Hx & _).
    unfold filmFile, speciesFile in Hx. vm_compute in Hx. discriminate.
Qed.

End SuccessFacts.


(** X20. When the films have pairwise distinct ids and so have the
    species, and no id has a path separator in it, a run that ends with
    status 0 has written to pairwise distinct file names: no page was
    written over another. *)
Theorem distinct_ids_write_distinct_files minify data w fs ss :
  main minify data = (w, 0%Z) ->
  films data = Some fs -> species data = Some ss ->
  NoDup (map Film.id fs) -> NoDup (map Species.id ss) ->
  Forall plainId (map Film.id fs) -> Forall plainId (map Species.id ss) ->
  NoDup (map fst (files w)).
Proof.
  intros H Ef Es Hf Hs _ _.
  destruct (main_exit_0 minify data w H)
    as (fs' & ls & vs & ps & ss' & Ef' & _ & _ & _ & Es' & Hfiles).
  rewrite Ef in Ef'. rewrite Es in Es'.
  injection Ef' as <-. injection Es' as <-.
  rewrite Hfiles. now apply expectedFiles_nodup.
Qed.

Lemma distinct_ids_write_distinct_files_witness :
  NoDup (map fst (files (fst (main None Samples.catalog)))).
Proof.
  apply (distinct_ids_write_distinct_files None Samples.catalog
           (fst (main None Samples.catalog))
           [Samples.f3; Samples.f2; Samples.f1] [Samples.human]).
  - vm_compute. reflexivity.
  - reflexivity.
  - reflexivity.
  - repeat constructor; simpl; intuition discriminate.
  - repeat constructor; simpl; intuition discriminate.
  - repeat constructor; vm_compute; intuition discriminate.
  - repeat constructor; vm_compute; intuition discriminate.
Defined.

Section TrailingSlashFacts.




End TrailingSlashFacts.


